(** * RedSVD-h: randomized SVD and symmetric eigendecomposition

    A shallow embedding of [include/RedSVD/RedSVD.h].  The header is a
    set of templates over the scalar and matrix types, so the embedding
    is generic in the same way: the scalar type and its arithmetic are a
    type class ([ScalarOps]), the C library's [std::rand] is a second
    class ([RandSource]) and Eigen's two dense solvers a third
    ([DenseSolvers]).  Matrices carry their row count and their list of
    columns, as Eigen's column-major dense matrices do.

    Structural properties are proved for every instance, hence for
    [float] and [double].  A property that depends on the value of an
    arithmetic expression is proved at the instance [Rscalar] of real
    numbers only when it says so (exact arithmetic); where rounding
    changes the answer the expression is evaluated at the instances
    [binary32] and [binary64] of IEEE 754 arithmetic. *)

From Stdlib Require Import List ZArith Lia Bool Arith PeanoNat.
From Stdlib Require Import Reals Lra Psatz.
From Stdlib Require Import Floats.SpecFloat.
Import ListNotations.

Set Implicit Arguments.

(** ** Interfaces the templates are instantiated with *)

(** [typename Scalar] with the operations the header applies to it.
    [of_int k] is the conversion [Scalar(k)] of an integer, explicit
    ([Scalar(1)], [Scalar(-2)], [(Scalar)RAND_MAX]) or implicit
    ([std::rand() + Scalar(1)]).  [literal_PI] and [literal_EPS] are the
    scalars built from the literals [3.14159...] and [1E-4]. *)
Class ScalarOps (Scalar : Type) : Type := {
  of_int : Z -> Scalar;
  s_add : Scalar -> Scalar -> Scalar;
  s_sub : Scalar -> Scalar -> Scalar;
  s_mul : Scalar -> Scalar -> Scalar;
  s_div : Scalar -> Scalar -> Scalar;
  s_sqrt : Scalar -> Scalar;
  s_log : Scalar -> Scalar;
  s_cos : Scalar -> Scalar;
  s_sin : Scalar -> Scalar;
  s_ltb : Scalar -> Scalar -> bool;
  literal_PI : Scalar;
  literal_EPS : Scalar
}.

(** [std::rand] and [RAND_MAX] of <cstdlib>: a hidden generator state
    that every call reads and advances. *)
Class RandSource : Type := {
  rand_state : Type;
  std_rand : rand_state -> Z * rand_state;
  RAND_MAX : Z
}.

(** ** Lists updated by index *)

Fixpoint list_set {A : Type} (l : list A) (n : nat) (v : A) : list A :=
  match l, n with
  | [], _ => []
  | _ :: t, O => v :: t
  | h :: t, S k => h :: list_set t k v
  end.

(** ** Dense matrices and vectors over a scalar type *)

Section Dense.

Context {Scalar : Type} {ops : ScalarOps Scalar}.

Definition zero : Scalar := of_int 0.

(** [Eigen::Matrix<Scalar, Dynamic, 1>] *)
Definition ScalarVector : Type := list Scalar.

(** [Eigen::Matrix<Scalar, Dynamic, Dynamic>], column-major: the row
    count and the columns, each of [nrows] coefficients. *)
Record DenseMatrix : Type := mkDense {
  nrows : nat;
  columns : list ScalarVector
}.

Definition rows (m : DenseMatrix) : nat := nrows m.
Definition cols (m : DenseMatrix) : nat := length (columns m).

(** The representation invariant of a matrix Eigen can hold. *)
Definition well_formed (m : DenseMatrix) : Prop :=
  Forall (fun c => length c = nrows m) (columns m).

(** [DenseMatrix M(p, q)]; the coefficients of a fresh matrix are
    unspecified in Eigen, and the header hands every fresh matrix to
    [sample_gaussian], which overwrites all of them and reads none
    ([sample_gaussian_overwrites] below). *)
Definition new_matrix (p q : nat) : DenseMatrix :=
  mkDense p (repeat (repeat zero p) q).

(** [mat.col(j)] and assignment to it *)
Definition col (m : DenseMatrix) (j : nat) : ScalarVector :=
  nth j (columns m) [].
Definition set_col (m : DenseMatrix) (j : nat) (v : ScalarVector) : DenseMatrix :=
  mkDense (nrows m) (list_set (columns m) j v).

(** [mat(i, j)] read and written *)
Definition coeff (m : DenseMatrix) (i j : nat) : Scalar := nth i (col m j) zero.
Definition set_coeff (m : DenseMatrix) (i j : nat) (v : Scalar) : DenseMatrix :=
  set_col m j (list_set (col m j) i v).

(** Coefficient-wise vector arithmetic *)
Fixpoint vzip (f : Scalar -> Scalar -> Scalar) (u v : ScalarVector) : ScalarVector :=
  match u, v with
  | a :: u', b :: v' => f a b :: vzip f u' v'
  | _, _ => []
  end.

Definition vsub (u v : ScalarVector) : ScalarVector := vzip s_sub u v.
Definition vscale (r : Scalar) (v : ScalarVector) : ScalarVector := map (s_mul r) v.
Definition vdiv (v : ScalarVector) (r : Scalar) : ScalarVector := map (fun a => s_div a r) v.
Definition vzero (v : ScalarVector) : ScalarVector := map (fun _ => zero) v.

(** [u.dot(v)], [v.squaredNorm()] and [v.norm()] for a real scalar *)
Definition dot (u v : ScalarVector) : Scalar :=
  fold_left (fun acc p => s_add acc (s_mul (fst p) (snd p))) (combine u v) zero.
Definition squaredNorm (v : ScalarVector) : Scalar := dot v v.
Definition norm (v : ScalarVector) : Scalar := s_sqrt (squaredNorm v).

(** Row [i] of a matrix, [A.transpose()] and the product [A * B] *)
Definition row (m : DenseMatrix) (i : nat) : ScalarVector :=
  map (fun c => nth i c zero) (columns m).

Definition transpose (m : DenseMatrix) : DenseMatrix :=
  mkDense (cols m) (map (row m) (seq 0 (rows m))).

Definition mat_mul (a b : DenseMatrix) : DenseMatrix :=
  mkDense (rows a)
    (map (fun cb => map (fun i => dot (row a i) cb) (seq 0 (rows a))) (columns b)).

End Dense.

Arguments DenseMatrix Scalar : clear implicits.
Arguments ScalarVector Scalar : clear implicits.

(** ** The generator state threaded through the samplers *)

Section RandMonad.

Context {rng : RandSource}.

Definition Rand (A : Type) : Type := rand_state -> A * rand_state.

Definition ret {A : Type} (a : A) : Rand A := fun s => (a, s).

Definition bind {A B : Type} (m : Rand A) (k : A -> Rand B) : Rand B :=
  fun s => let (a, s') := m s in k a s'.

(** A [for] loop over the indices [idx] whose body updates [a]. *)
Fixpoint for_each {I A : Type} (idx : list I) (body : I -> A -> Rand A) (a : A)
  : Rand A :=
  match idx with
  | [] => ret a
  | i :: rest => bind (body i a) (for_each rest body)
  end.

(** The generator state after [n] calls of [std::rand]. *)
Fixpoint rand_skip (n : nat) (s : rand_state) : rand_state :=
  match n with
  | O => s
  | Datatypes.S k => rand_skip k (snd (std_rand s))
  end.

End RandMonad.

Declare Scope rand_scope.
Delimit Scope rand_scope with rand.
Notation "x <- m ;; k" := (bind m (fun x => k))
  (at level 61, m at next level, right associativity) : rand_scope.
Notation "' p <- m ;; k" := (bind m (fun x => let p := x in k))
  (at level 61, p pattern, m at next level, right associativity) : rand_scope.

(** ** Gaussian sampler and orthonormalizer *)

Section Core.

Context {Scalar : Type} {ops : ScalarOps Scalar} {rng : RandSource}.

Local Open Scope rand_scope.

(** [(Scalar)(std::rand() + Scalar(1)) / ((Scalar)RAND_MAX+Scalar(2))]
    for the value [k] that [std::rand()] returned: the expression of
    both [v1] and [v2]. *)
Definition uniform (k : Z) : Scalar :=
  s_div (s_add (of_int k) (of_int 1)) (s_add (of_int RAND_MAX) (of_int 2)).

(** The two assignments [x = len * cos(...)] and [y = len * sin(...)],
    as values. *)
Definition box_muller (v1 v2 : Scalar) : Scalar * Scalar :=
  let PI := literal_PI in
  let len := s_sqrt (s_mul (of_int (-2)) (s_log v1)) in
  (s_mul len (s_cos (s_mul (s_mul (of_int 2) PI) v2)),
   s_mul len (s_sin (s_mul (s_mul (of_int 2) PI) v2))).

(** The pair of samples one call draws from the generator. *)
Definition sample_pair : Rand (Scalar * Scalar) :=
  k1 <- std_rand ;;
  k2 <- std_rand ;;
  ret (box_muller (uniform k1) (uniform k2)).

(** [sample_gaussian(Scalar& x, Scalar& y)] called on two coefficients
    of [mat]: the references are the positions [x] and [y], and the two
    assignments are two writes to the matrix, in the order of the source.
    When [x] and [y] are the same position the second write lands on the
    first. *)
Definition sample_gaussian_ref (x y : nat * nat) (mat : DenseMatrix Scalar) : Rand (DenseMatrix Scalar) :=
  xy <- sample_pair ;;
  let mat := set_coeff mat (fst x) (snd x) (fst xy) in
  let mat := set_coeff mat (fst y) (snd y) (snd xy) in
  ret mat.

(** The values of [j] in [for(Index j = 0; j+1 < mat.cols(); j += 2)] *)
Definition pair_starts (c : nat) : list nat := map (fun t => 2 * t) (seq 0 (c / 2)).

(** The body of the loop over the rows of [sample_gaussian(MatrixType&)] *)
Definition sample_row (i : nat) (mat : DenseMatrix Scalar) : Rand (DenseMatrix Scalar) :=
  mat <- for_each (pair_starts (cols mat))
           (fun j mat => sample_gaussian_ref (i, j) (i, j + 1) mat) mat ;;
  if negb (cols mat mod 2 =? 0)
  then sample_gaussian_ref (i, cols mat - 1) (i, cols mat - 1) mat
  else ret mat.

(** [sample_gaussian(MatrixType& mat)] *)
Definition sample_gaussian (mat : DenseMatrix Scalar) : Rand (DenseMatrix Scalar) :=
  for_each (seq 0 (rows mat)) sample_row mat.

(** The two values [std::rand] returns next. *)
Definition next_rand (s : rand_state) : Z := fst (std_rand s).
Definition next_rand2 (s : rand_state) : Z := fst (std_rand (snd (std_rand s))).

(** The value [sample_gaussian] leaves in column [j] of a row of [c]
    columns, given the generator state [s] at the call that writes it
    last: the first value of the pair when [j] starts a pair of columns,
    the second when [j] ends one or is the column left over. *)
Definition sample_value (c j : nat) (s : rand_state) : Scalar :=
  let xy := box_muller (uniform (next_rand s)) (uniform (next_rand2 s)) in
  if Nat.even j && (j + 1 <? c) then fst xy else snd xy.

(** The number of values one row draws: two per pair of columns, and
    two more when a column is left over. *)
Definition row_draws (c : nat) : nat :=
  c / 2 * 2 + (if c mod 2 =? 0 then 0 else 2).

(** Shape of a matrix: well formed, of [r] rows and [c] columns. *)
Definition shaped (r c : nat) (m : DenseMatrix Scalar) : Prop :=
  well_formed m /\ rows m = r /\ cols m = c.

(** One pass of the inner loop of [gram_schmidt]:
    [r = mat.col(i).dot(mat.col(j)); mat.col(i) -= r * mat.col(j)] *)
Definition project_out (i : nat) (mat : DenseMatrix Scalar) (j : nat) : DenseMatrix Scalar :=
  let r := dot (col mat i) (col mat j) in
  set_col mat i (vsub (col mat i) (vscale r (col mat j))).

(** [for(Index k = i; k < mat.cols(); ++k) mat.col(k).setZero()] *)
Definition zero_from (i : nat) (mat : DenseMatrix Scalar) : DenseMatrix Scalar :=
  fold_left (fun m k => set_col m k (vzero (col m k))) (seq i (cols mat - i)) mat.

(** The outer loop of [gram_schmidt] over the column indices [idx]; the
    [return] inside the loop ends it. *)
Fixpoint gram_schmidt_loop (idx : list nat) (mat : DenseMatrix Scalar) : DenseMatrix Scalar :=
  match idx with
  | [] => mat
  | i :: rest =>
      let EPS := literal_EPS in
      let mat := fold_left (project_out i) (seq 0 i) mat in
      let norm := norm (col mat i) in
      if s_ltb norm EPS
      then zero_from i mat
      else gram_schmidt_loop rest (set_col mat i (vdiv (col mat i) norm))
  end.

(** [gram_schmidt(MatrixType& mat)] *)
Definition gram_schmidt (mat : DenseMatrix Scalar) : DenseMatrix Scalar :=
  gram_schmidt_loop (seq 0 (cols mat)) mat.

End Core.

(** ** The two engines *)

(** [Index r = (rank < A.cols()) ? rank : A.cols();
     r = (r < A.rows()) ? r : A.rows();]
    [Index] is a signed integer and the sizes are never negative. *)
Definition clamp_rank (rank : Z) (a_rows a_cols : nat) : Z :=
  let r := if (rank <? Z.of_nat a_cols)%Z then rank else Z.of_nat a_cols in
  if (r <? Z.of_nat a_rows)%Z then r else Z.of_nat a_rows.

(** The conversion of an [Index] to the 32-bit [int] of
    [int r = (A.rows() < A.cols()) ? A.rows() : A.cols();] *)
Definition to_int (z : Z) : Z := ((z + 2 ^ 31) mod 2 ^ 32 - 2 ^ 31)%Z.

(** The rank the one-argument constructors pass to [compute]. *)
Definition default_rank (a_rows a_cols : nat) : Z :=
  to_int (if a_rows <? a_cols then Z.of_nat a_rows else Z.of_nat a_cols).

(** [DenseMatrix O(A.rows(), r)], [DenseMatrix P(B.cols(), r)] and the
    same constructor in [RedSymEigen::compute]: Eigen takes sizes that
    are not negative and rejects the others, so a call of an engine
    completes only when the clamped rank is not negative.  The
    embeddings of the engines below convert [r] to a column count; they
    stand for the source on the calls [accepts_rank] admits. *)
Definition accepts_rank (rank : Z) (a_rows a_cols : nat) : bool :=
  (0 <=? clamp_rank rank a_rows a_cols)%Z.

Section Solvers.

Context {Scalar : Type}.

(** What the header reads from an [Eigen::BDCSVD<DenseMatrix>] *)
Record BDCSVD : Type := mkSVD {
  svd_matrixU : DenseMatrix Scalar;
  svd_singularValues : ScalarVector Scalar;
  svd_matrixV : DenseMatrix Scalar
}.

(** What the header reads from an
    [Eigen::SelfAdjointEigenSolver<DenseMatrix>] *)
Record SelfAdjointEigenSolver : Type := mkEig {
  eig_eigenvalues : ScalarVector Scalar;
  eig_eigenvectors : DenseMatrix Scalar
}.

(** Eigen's solvers: [BDCSVD<DenseMatrix>(C, ComputeThinU | ComputeThinV)]
    and [SelfAdjointEigenSolver<DenseMatrix>(B)]. *)
Class DenseSolvers : Type := {
  bdcsvd_thin : DenseMatrix Scalar -> BDCSVD;
  self_adjoint_eigen : DenseMatrix Scalar -> SelfAdjointEigenSolver
}.

End Solvers.

Arguments BDCSVD Scalar : clear implicits.
Arguments SelfAdjointEigenSolver Scalar : clear implicits.
Arguments DenseSolvers Scalar : clear implicits.

(** [class RedSVD].  [compute_singularValues] has no embedding: its body
    calls [this->compute_svd(A, rank)] with two arguments, and the only
    [compute_svd] the class declares takes four, none with a default, so
    the member does not compile once it is instantiated. *)
Module RedSVD.
Section Engine.

Context {Scalar : Type} {ops : ScalarOps Scalar} {rng : RandSource}
        {solvers : DenseSolvers Scalar}.

Local Open Scope rand_scope.

(** The result fields [m_matrixU], [m_vectorS], [m_matrixV] *)
Record engine : Type := mkEngine {
  m_matrixU : DenseMatrix Scalar;
  m_vectorS : ScalarVector Scalar;
  m_matrixV : DenseMatrix Scalar
}.

(** [RedSVD() {}]: the fields are default-constructed, of size zero. *)
Definition empty : engine := mkEngine (mkDense 0 []) [] (mkDense 0 []).

(** [compute_svd(A, rank, Z, Y)]: the value returned and the matrices
    written through the pointers [Z] and [Y].  A negative [r] is not a
    size Eigen accepts ([accepts_rank]); it cannot arise from a rank
    that is not negative. *)
Definition compute_svd (A : DenseMatrix Scalar) (rank : Z)
  : Rand (BDCSVD Scalar * DenseMatrix Scalar * DenseMatrix Scalar) :=
  let _ := if (cols A =? 0) || (rows A =? 0) then tt else tt in
  let r := clamp_rank rank (rows A) (cols A) in
  O <- sample_gaussian (new_matrix (rows A) (Z.to_nat r)) ;;
  let Y := gram_schmidt (mat_mul (transpose A) O) in
  let B := mat_mul A Y in
  P <- sample_gaussian (new_matrix (cols B) (Z.to_nat r)) ;;
  let Z := gram_schmidt (mat_mul B P) in
  let C := mat_mul (transpose Z) B in
  ret (bdcsvd_thin C, Z, Y).

Definition compute (A : DenseMatrix Scalar) (rank : Z) (this : engine) : Rand engine :=
  ' (svdOfC, Z, Y) <- compute_svd A rank ;;
  let this := mkEngine (mat_mul Z (svd_matrixU svdOfC)) (m_vectorS this) (m_matrixV this) in
  let this := mkEngine (m_matrixU this) (svd_singularValues svdOfC) (m_matrixV this) in
  let this := mkEngine (m_matrixU this) (m_vectorS this) (mat_mul Y (svd_matrixV svdOfC)) in
  ret this.

Definition compute_V (A : DenseMatrix Scalar) (rank : Z) (this : engine) : Rand engine :=
  ' (svdOfC, Z, Y) <- compute_svd A rank ;;
  let this := mkEngine (m_matrixU this) (svd_singularValues svdOfC) (m_matrixV this) in
  let this := mkEngine (m_matrixU this) (m_vectorS this) (mat_mul Y (svd_matrixV svdOfC)) in
  ret this.

Definition compute_U (A : DenseMatrix Scalar) (rank : Z) (this : engine) : Rand engine :=
  ' (svdOfC, Z, Y) <- compute_svd A rank ;;
  let this := mkEngine (m_matrixU this) (svd_singularValues svdOfC) (m_matrixV this) in
  let this := mkEngine (mat_mul Z (svd_matrixU svdOfC)) (m_vectorS this) (m_matrixV this) in
  ret this.

(** [RedSVD(const MatrixType& A)] *)
Definition construct (A : DenseMatrix Scalar) : Rand engine :=
  let r := default_rank (rows A) (cols A) in
  compute A r empty.

(** [RedSVD(const MatrixType& A, const Index rank)] *)
Definition construct_rank (A : DenseMatrix Scalar) (rank : Z) : Rand engine :=
  compute A rank empty.

End Engine.
End RedSVD.

(** [class RedSymEigen] *)
Module RedSymEigen.
Section Engine.

Context {Scalar : Type} {ops : ScalarOps Scalar} {rng : RandSource}
        {solvers : DenseSolvers Scalar}.

Local Open Scope rand_scope.

(** The result fields [m_eigenvalues], [m_eigenvectors] *)
Record engine : Type := mkEngine {
  m_eigenvalues : ScalarVector Scalar;
  m_eigenvectors : DenseMatrix Scalar
}.

(** [RedSymEigen() {}] *)
Definition empty : engine := mkEngine [] (mkDense 0 []).

(** [compute(A, rank)]; past the guard a negative [r] is not a size
    Eigen accepts ([accepts_rank]), as in [RedSVD::compute_svd]. *)
Definition compute (A : DenseMatrix Scalar) (rank : Z) (this : engine) : Rand engine :=
  if (cols A =? 0) || (rows A =? 0) then ret this else
  let r := clamp_rank rank (rows A) (cols A) in
  O <- sample_gaussian (new_matrix (rows A) (Z.to_nat r)) ;;
  let Y := gram_schmidt (mat_mul (transpose A) O) in
  let B := mat_mul (mat_mul (transpose Y) A) Y in
  let eigenOfB := self_adjoint_eigen B in
  let this := mkEngine (eig_eigenvalues eigenOfB) (m_eigenvectors this) in
  let this := mkEngine (m_eigenvalues this) (mat_mul Y (eig_eigenvectors eigenOfB)) in
  ret this.

(** [RedSymEigen(const MatrixType& A)] *)
Definition construct (A : DenseMatrix Scalar) : Rand engine :=
  let r := default_rank (rows A) (cols A) in
  compute A r empty.

(** [RedSymEigen(const MatrixType& A, const Index rank)] *)
Definition construct_rank (A : DenseMatrix Scalar) (rank : Z) : Rand engine :=
  compute A rank empty.

End Engine.
End RedSymEigen.

(** [class RedPCA] *)
Module RedPCA.
Section Engine.

Context {Scalar : Type} {ops : ScalarOps Scalar} {rng : RandSource}
        {solvers : DenseSolvers Scalar}.

Local Open Scope rand_scope.

(** The result fields [m_components], [m_scores] *)
Record engine : Type := mkEngine {
  m_components : DenseMatrix Scalar;
  m_scores : DenseMatrix Scalar
}.

(** [RedPCA() {}] *)
Definition empty : engine := mkEngine (mkDense 0 []) (mkDense 0 []).

(** [U * S.asDiagonal()]: column [j] of [U] with every coefficient
    multiplied by [S(j)].  Eigen requires [U] to have as many columns as
    [S] has coefficients; the solver's thin factors do. *)
Definition times_diagonal (U : DenseMatrix Scalar) (S : ScalarVector Scalar)
  : DenseMatrix Scalar :=
  mkDense (nrows U)
    (map (fun cs => map (fun a => s_mul a (snd cs)) (fst cs)) (combine (columns U) S)).

(** [compute(A, rank)]: the local [RedSVD<MatrixType> redsvd(A, rank)]
    is a fresh engine built by the two-argument constructor. *)
Definition compute (A : DenseMatrix Scalar) (rank : Z) (this : engine) : Rand engine :=
  redsvd <- RedSVD.construct_rank A rank ;;
  let S := RedSVD.m_vectorS redsvd in
  let this := mkEngine (RedSVD.m_matrixV redsvd) (m_scores this) in
  let this := mkEngine (m_components this) (times_diagonal (RedSVD.m_matrixU redsvd) S) in
  ret this.

(** [RedPCA(const MatrixType& A)] *)
Definition construct (A : DenseMatrix Scalar) : Rand engine :=
  let r := default_rank (rows A) (cols A) in
  compute A r empty.

(** [RedPCA(const MatrixType& A, const Index rank)] *)
Definition construct_rank (A : DenseMatrix Scalar) (rank : Z) : Rand engine :=
  compute A rank empty.

(** [components()] and [scores()] *)
Definition components (this : engine) : DenseMatrix Scalar := m_components this.
Definition scores (this : engine) : DenseMatrix Scalar := m_scores this.

End Engine.
End RedPCA.

(** ** The Range Finder of the specification *)

Section RangeFinder.

Context {Scalar : Type} {ops : ScalarOps Scalar} {rng : RandSource}.

Local Open Scope rand_scope.

(** The procedure as the specification words it, for a target [M] of
    [p] rows and a rank [r]: draw a [p x r] Gaussian matrix [O], form
    the sketch [M^T * O], orthonormalize it. *)
Definition range_finder (M : DenseMatrix Scalar) (r : nat) : Rand (DenseMatrix Scalar) :=
  O <- sample_gaussian (new_matrix (rows M) r) ;;
  ret (gram_schmidt (mat_mul (transpose M) O)).

End RangeFinder.

(** ** The Orthonormalizer of the specification *)

Section OrthonormalizerSpec.

Context {Scalar : Type} {ops : ScalarOps Scalar}.

(** [w -= (w . q) * q] *)
Definition project_step (w q : ScalarVector Scalar) : ScalarVector Scalar :=
  vsub w (vscale (dot w q) q).

(** The column [c] after the projections onto [qs] have been subtracted,
    one after the other, in the order of [qs]. *)
Definition project (qs : list (ScalarVector Scalar)) (c : ScalarVector Scalar)
  : ScalarVector Scalar :=
  fold_left project_step qs c.

(** The procedure of the specification on the columns still to do, given
    the columns already done: subtract the projections onto the earlier
    columns, take the norm, and either zero this column and all that
    follow and stop, or divide by the norm and go on. *)
Fixpoint orthonormalize (done todo : list (ScalarVector Scalar))
  : list (ScalarVector Scalar) :=
  match todo with
  | [] => done
  | c :: rest =>
      let w := project done c in
      if s_ltb (norm w) literal_EPS
      then done ++ vzero w :: map vzero rest
      else orthonormalize (done ++ [vdiv w (norm w)]) rest
  end.

(** All coefficients of a vector are the scalar zero. *)
Definition all_zero (v : ScalarVector Scalar) : Prop := Forall (fun x => x = zero) v.

(** The matrix of the first [k] columns, Eigen's [mat.leftCols(k)]. *)
Definition left_columns (m : DenseMatrix Scalar) (k : nat) : DenseMatrix Scalar :=
  mkDense (nrows m) (firstn k (columns m)).

End OrthonormalizerSpec.

(** ** The steps of the two engines, named *)

Section EngineSteps.

Context {Scalar : Type} {ops : ScalarOps Scalar} {rng : RandSource}.

(** The matrices [Y], [B], [Z] and the core [C] of [compute_svd], and
    the generator state it leaves, as functions of its arguments. *)
Definition effective_rank (A : DenseMatrix Scalar) (rank : Z) : nat :=
  Z.to_nat (clamp_rank rank (rows A) (cols A)).

Definition sketch_O (A : DenseMatrix Scalar) (rank : Z) (s : rand_state) :=
  sample_gaussian (new_matrix (rows A) (effective_rank A rank)) s.

Definition sketch_Y (A : DenseMatrix Scalar) (rank : Z) (s : rand_state) :=
  gram_schmidt (mat_mul (transpose A) (fst (sketch_O A rank s))).

Definition sketch_B (A : DenseMatrix Scalar) (rank : Z) (s : rand_state) :=
  mat_mul A (sketch_Y A rank s).

Definition sketch_P (A : DenseMatrix Scalar) (rank : Z) (s : rand_state) :=
  sample_gaussian (new_matrix (cols (sketch_B A rank s)) (effective_rank A rank))
                  (snd (sketch_O A rank s)).

Definition sketch_Z (A : DenseMatrix Scalar) (rank : Z) (s : rand_state) :=
  gram_schmidt (mat_mul (sketch_B A rank s) (fst (sketch_P A rank s))).

Definition core_C (A : DenseMatrix Scalar) (rank : Z) (s : rand_state) :=
  mat_mul (transpose (sketch_Z A rank s)) (sketch_B A rank s).

(** [RedSymEigen::compute] past its guard *)
Definition eigen_Y (A : DenseMatrix Scalar) (rank : Z) (s : rand_state) :=
  sketch_Y A rank s.

Definition eigen_B (A : DenseMatrix Scalar) (rank : Z) (s : rand_state) :=
  mat_mul (mat_mul (transpose (eigen_Y A rank s)) A) (eigen_Y A rank s).

End EngineSteps.

(** ** Instances: exact arithmetic, a scripted generator, small solvers *)

Definition Rltb (a b : R) : bool := if Rlt_dec a b then true else false.

(** Exact arithmetic: the real numbers, every operation without
    rounding, [std::log] the natural logarithm, the two literals denoting
    themselves.  This is the arithmetic a floating-point [Scalar]
    approximates, not a type the header is compiled for. *)
#[export] Instance Rscalar : ScalarOps R := {|
  of_int := IZR;
  s_add := Rplus;
  s_sub := Rminus;
  s_mul := Rmult;
  s_div := Rdiv;
  s_sqrt := sqrt;
  s_log := ln;
  s_cos := cos;
  s_sin := sin;
  s_ltb := Rltb;
  literal_PI := 3.1415926535897932384626433832795028841971693993751%R;
  literal_EPS := 1E-4%R
|}.

(** A generator that replays a list of values and then returns 0, with
    the [RAND_MAX] of glibc. *)
#[export] Instance scripted_rand : RandSource := {|
  rand_state := list Z;
  std_rand := fun s => match s with [] => (0%Z, []) | k :: t => (k, t) end;
  RAND_MAX := 2147483647
|}.

(** The thin SVD of a core with at most one coefficient:
    [(c) = (1) * (|c|) * (sign c)], and nothing for the empty core.  The
    closed examples below decompose no larger core. *)
Definition svd_small (C : DenseMatrix R) : BDCSVD R :=
  match columns C with
  | [[c]] => mkSVD (mkDense 1 [[1%R]]) [Rabs c]
               (mkDense 1 [[if Rltb c 0 then (-1)%R else 1%R]])
  | _ => mkSVD (mkDense (rows C) []) [] (mkDense (cols C) [])
  end.

(** The eigendecomposition of a core with at most one coefficient. *)
Definition eig_small (B : DenseMatrix R) : SelfAdjointEigenSolver R :=
  match columns B with
  | [[b]] => mkEig [b] (mkDense 1 [[1%R]])
  | _ => mkEig [] (mkDense (rows B) [])
  end.

#[export] Instance small_solvers : DenseSolvers R := {|
  bdcsvd_thin := svd_small;
  self_adjoint_eigen := eig_small
|}.

(** ** Instances: IEEE 754 binary floating point

    The scalar types the header is compiled for are [float] and
    [double].  Their arithmetic is that of the Standard Library's
    executable specification of IEEE 754 ([SpecFloat]) at precision 24
    and 53, every operation rounded to nearest, ties to even, with no
    excess precision and no fused multiply-add.  The functions of
    <cmath> that IEEE 754 does not define are left to the C library
    ([LibM]). *)

Record LibM : Type := mkLibM {
  libm_log : spec_float -> spec_float;
  libm_cos : spec_float -> spec_float;
  libm_sin : spec_float -> spec_float
}.

(** The conversion of an integer to the format, [Scalar(k)] *)
Definition ieee_of_int (prec emax : Z) (k : Z) : spec_float :=
  binary_normalize prec emax k 0 false.

(** The conversion of a [double] to the format, [Scalar(3.14...)] and
    [Scalar(1E-4)] applied to a literal of type [double] *)
Definition ieee_of_double (prec emax : Z) (d : spec_float) : spec_float :=
  match d with
  | S754_finite s m e => binary_round prec emax s m e
  | _ => d
  end.

(** The [double] nearest to the literal [3.14159...93751] of line 46
    ([double_PI_is_nearest] below) *)
Definition double_PI : spec_float := S754_finite false 7074237752028440 (-51).

(** The [double] nearest to the literal [1E-4]: 1 and 10000 are doubles
    and the division is correctly rounded. *)
Definition double_EPS : spec_float :=
  SFdiv 53 1024 (ieee_of_int 53 1024 1) (ieee_of_int 53 1024 10000).

Definition ieee_scalar (prec emax : Z) (libm : LibM) : ScalarOps spec_float := {|
  of_int := ieee_of_int prec emax;
  s_add := SFadd prec emax;
  s_sub := SFsub prec emax;
  s_mul := SFmul prec emax;
  s_div := SFdiv prec emax;
  s_sqrt := SFsqrt prec emax;
  s_log := libm_log libm;
  s_cos := libm_cos libm;
  s_sin := libm_sin libm;
  s_ltb := SFltb;
  literal_PI := ieee_of_double prec emax double_PI;
  literal_EPS := ieee_of_double prec emax double_EPS
|}.

Definition binary64 : LibM -> ScalarOps spec_float := ieee_scalar 53 1024.





(** ** Inputs of the closed examples *)

Definition A_2x1 : DenseMatrix R := mkDense 2 [[1%R; 1%R]].
Definition A_1x2 : DenseMatrix R := mkDense 1 [[1%R]; [2%R]].
Definition A_1x1 : DenseMatrix R := mkDense 1 [[2%R]].
Definition A_0x0 : DenseMatrix R := mkDense 0 [].
Definition A_0x2 : DenseMatrix R := mkDense 0 [[]; []].

(** The generator about to return [0, 0, ...] *)
Definition s_zeros : @rand_state scripted_rand := [].

(** The generator about to return [RAND_MAX, 0, 0, ...] *)
Definition s_max : @rand_state scripted_rand := [2147483647%Z].

(** Two equal columns [(3, 4)] *)
Definition A_twice : DenseMatrix R := mkDense 2 [[3%R; 4%R]; [3%R; 4%R]].


(** Two equal columns [(1e15, 7e15)] of doubles; both integers are
    below [2^53] and so are doubles. *)
Definition A_big_twice : DenseMatrix spec_float :=
  mkDense 2 [[ieee_of_int 53 1024 1000000000000000; ieee_of_int 53 1024 7000000000000000];
             [ieee_of_int 53 1024 1000000000000000; ieee_of_int 53 1024 7000000000000000]].

(** The column [(1e200, 1e200)] of doubles followed by the column [(1, 0)] *)
Definition A_huge_first : DenseMatrix spec_float :=
  mkDense 2 [[ieee_of_int 53 1024 (10 ^ 200); ieee_of_int 53 1024 (10 ^ 200)];
             [ieee_of_int 53 1024 1; ieee_of_int 53 1024 0]].

(** * Properties *)

(** ** Lists updated by index *)

Lemma list_set_length {A : Type} (l : list A) n v :
  length (list_set l n v) = length l.
Proof.
  revert n; induction l as [|h t IH]; intros [|k]; simpl; auto.
Qed.

Lemma nth_list_set_eq {A : Type} (l : list A) n v d :
  n < length l -> nth n (list_set l n v) d = v.
Proof.
  revert n; induction l as [|h t IH]; intros [|k] H; simpl in *; try lia; auto.
  apply IH; lia.
Qed.

Lemma nth_list_set_neq {A : Type} (l : list A) n k v d :
  n <> k -> nth k (list_set l n v) d = nth k l d.
Proof.
  revert n k; induction l as [|h t IH]; intros [|n] [|k] H; simpl; auto; try lia.
Qed.

Lemma list_set_out {A : Type} (l : list A) n v :
  length l <= n -> list_set l n v = l.
Proof.
  revert n; induction l as [|h t IH]; intros [|k] H; simpl in *; auto; try lia.
  f_equal; apply IH; lia.
Qed.

(** ** Sizes *)

Section Sizes.

Context {Scalar : Type} {ops : ScalarOps Scalar}.

Lemma rows_set_col (m : DenseMatrix Scalar) j v : rows (set_col m j v) = rows m.
Proof. reflexivity. Qed.

Lemma cols_set_col (m : DenseMatrix Scalar) j v : cols (set_col m j v) = cols m.
Proof. unfold cols; simpl; apply list_set_length. Qed.

Lemma rows_set_coeff (m : DenseMatrix Scalar) i j v : rows (set_coeff m i j v) = rows m.
Proof. reflexivity. Qed.

Lemma cols_set_coeff (m : DenseMatrix Scalar) i j v : cols (set_coeff m i j v) = cols m.
Proof. apply cols_set_col. Qed.

Lemma rows_new_matrix p q : rows (new_matrix p q) = p.
Proof. reflexivity. Qed.

Lemma cols_new_matrix p q : cols (new_matrix p q) = q.
Proof. unfold cols; simpl; apply repeat_length. Qed.

Lemma rows_transpose (m : DenseMatrix Scalar) : rows (transpose m) = cols m.
Proof. reflexivity. Qed.

Lemma cols_transpose (m : DenseMatrix Scalar) : cols (transpose m) = rows m.
Proof. unfold cols at 1; simpl; rewrite length_map, length_seq; reflexivity. Qed.

Lemma rows_mat_mul (a b : DenseMatrix Scalar) : rows (mat_mul a b) = rows a.
Proof. reflexivity. Qed.

Lemma cols_mat_mul (a b : DenseMatrix Scalar) : cols (mat_mul a b) = cols b.
Proof. unfold cols; simpl; apply length_map. Qed.

Lemma well_formed_new_matrix p q : well_formed (new_matrix p q).
Proof.
  unfold well_formed; simpl. apply Forall_forall; intros c Hc.
  apply repeat_spec in Hc; subst c. apply repeat_length.
Qed.

Lemma well_formed_mat_mul (a b : DenseMatrix Scalar) : well_formed (mat_mul a b).
Proof.
  unfold well_formed; simpl. apply Forall_forall; intros c Hc.
  apply in_map_iff in Hc. destruct Hc as [cb [<- _]].
  rewrite length_map, length_seq. reflexivity.
Qed.

Lemma well_formed_set_coeff (m : DenseMatrix Scalar) i j v :
  well_formed m -> well_formed (set_coeff m i j v).
Proof.
  unfold well_formed, set_coeff, set_col, col; simpl. intros H.
  remember (nrows m) as r eqn:Hr; clear Hr.
  revert j; induction H as [|c l Hc Hl IH]; intros [|j]; simpl; constructor; auto.
  rewrite list_set_length; exact Hc.
Qed.

(** Transposing twice gives back a matrix whose columns all have
    [nrows] coefficients. *)
Lemma transpose_involutive (m : DenseMatrix Scalar) :
  well_formed m -> transpose (transpose m) = m.
Proof.
  destruct m as [r cs]. unfold well_formed, transpose, rows, cols, row; simpl.
  intros H. rewrite length_map, length_seq. f_equal.
  apply nth_ext with (d := []) (d' := []).
  - rewrite length_map, length_seq; reflexivity.
  - rewrite length_map, length_seq. intros j Hj.
    rewrite nth_indep with (d' := map (fun c => nth 0 c zero) (map (fun i => map (fun c => nth i c zero) cs) (seq 0 r)))
      by (rewrite length_map, length_seq; exact Hj).
    rewrite map_nth with (f := fun i => map (fun c => nth i c zero) (map (fun i0 => map (fun c => nth i0 c zero) cs) (seq 0 r))) (d := 0).
    rewrite seq_nth by exact Hj. simpl.
    rewrite map_map.
    assert (Hlen : length (nth j cs []) = r).
    { rewrite Forall_forall in H. apply H. apply nth_In; exact Hj. }
    apply nth_ext with (d := zero) (d' := zero).
    + rewrite length_map, length_seq; auto.
    + rewrite length_map, length_seq. intros i Hi.
      rewrite nth_indep with (d' := (fun x => nth j (map (fun c => nth x c zero) cs) zero) 0)
        by (rewrite length_map, length_seq; exact Hi).
      rewrite map_nth with (f := fun x => nth j (map (fun c => nth x c zero) cs) zero).
      rewrite seq_nth by exact Hi. simpl.
      rewrite nth_indep with (d' := (fun c => nth i c zero) [])
        by (rewrite length_map; exact Hj).
      rewrite map_nth with (f := fun c => nth i c zero). reflexivity.
Qed.

End Sizes.

(** ** Loops over the generator *)

Section Loops.

Context {rng : RandSource}.

Lemma rand_skip_add a b s : rand_skip (a + b) s = rand_skip b (rand_skip a s).
Proof. revert s; induction a as [|a IH]; intros s; simpl; auto. Qed.

Lemma for_each_app {I A : Type} (l1 l2 : list I) (body : I -> A -> Rand A) a s :
  for_each (l1 ++ l2) body a s =
  for_each l2 body (fst (for_each l1 body a s)) (snd (for_each l1 body a s)).
Proof.
  revert a s; induction l1 as [|i l1 IH]; intros a s; simpl; auto.
  unfold bind. destruct (body i a s) as [a' s']. apply IH.
Qed.

(** A property every pass of the body keeps holds after the loop. *)
Lemma for_each_inv {I A : Type} (P : A -> Prop) (idx : list I) (body : I -> A -> Rand A) :
  (forall i a s, P a -> P (fst (body i a s))) ->
  forall a s, P a -> P (fst (for_each idx body a s)).
Proof.
  intros Hbody. induction idx as [|i idx IH]; intros a s Ha; simpl; auto.
  unfold bind. specialize (Hbody i a s Ha).
  destruct (body i a s) as [a' s']. apply IH. exact Hbody.
Qed.

(** When every pass draws [k] values the loop draws [k] per index. *)
Lemma for_each_skip {I A : Type} (P : A -> Prop) (k : nat) (idx : list I)
      (body : I -> A -> Rand A) :
  (forall i a s, P a -> P (fst (body i a s)) /\ snd (body i a s) = rand_skip k s) ->
  forall a s, P a -> snd (for_each idx body a s) = rand_skip (length idx * k) s.
Proof.
  intros Hbody. induction idx as [|i idx IH]; intros a s Ha; simpl; auto.
  unfold bind. destruct (Hbody i a s Ha) as [HP Hs].
  destruct (body i a s) as [a' s']. simpl in *.
  rewrite IH by exact HP. rewrite Hs, rand_skip_add. reflexivity.
Qed.

End Loops.

(** ** The sampler: what it writes and how much it draws *)

Section SamplerFacts.

Context {Scalar : Type} {ops : ScalarOps Scalar} {rng : RandSource}.

Lemma sample_pair_eq s :
  sample_pair s = (box_muller (uniform (next_rand s)) (uniform (next_rand2 s)), rand_skip 2 s).
Proof.
  unfold sample_pair, bind, ret, next_rand, next_rand2. simpl.
  destruct (std_rand s) as [k1 s1]. simpl. destruct (std_rand s1) as [k2 s2]. reflexivity.
Qed.

Lemma sample_gaussian_ref_eq x y (mat : DenseMatrix Scalar) s :
  sample_gaussian_ref x y mat s =
  (set_coeff (set_coeff mat (fst x) (snd x)
                (fst (box_muller (uniform (next_rand s)) (uniform (next_rand2 s)))))
             (fst y) (snd y)
             (snd (box_muller (uniform (next_rand s)) (uniform (next_rand2 s)))),
   rand_skip 2 s).
Proof.
  unfold sample_gaussian_ref, bind, ret. rewrite sample_pair_eq. reflexivity.
Qed.

Lemma shaped_set_coeff r c (m : DenseMatrix Scalar) i j v :
  shaped r c m -> shaped r c (set_coeff m i j v).
Proof.
  intros (Hw & Hr & Hc). repeat split.
  - apply well_formed_set_coeff; exact Hw.
  - exact Hr.
  - rewrite cols_set_coeff; exact Hc.
Qed.

Lemma shaped_sample_gaussian_ref r c x y (m : DenseMatrix Scalar) s :
  shaped r c m -> shaped r c (fst (sample_gaussian_ref x y m s)).
Proof.
  intros H. rewrite sample_gaussian_ref_eq. simpl.
  apply shaped_set_coeff, shaped_set_coeff, H.
Qed.

Lemma pair_starts_length c : length (pair_starts c) = c / 2.
Proof. unfold pair_starts. rewrite length_map, length_seq. reflexivity. Qed.

(** [pair_starts c] lists the even [j] with [j+1 < c], in increasing order. *)
Lemma pair_starts_spec c j :
  In j (pair_starts c) <-> Nat.even j = true /\ j + 1 < c.
Proof.
  unfold pair_starts. rewrite in_map_iff. split.
  - intros [t [<- Ht]]. apply in_seq in Ht. split.
    + rewrite Nat.even_mul. reflexivity.
    + assert (2 * (c / 2) <= c) by (apply Nat.Div0.mul_div_le). lia.
  - intros [He Hj]. apply Nat.even_spec in He. destruct He as [t ->].
    exists t. split; auto. apply in_seq.
    assert (t + 1 <= c / 2) by (apply Nat.div_le_lower_bound; lia). lia.
Qed.

Lemma sample_row_pairs_shaped r c i (m : DenseMatrix Scalar) s (js : list nat) :
  shaped r c m ->
  shaped r c (fst (for_each js (fun j mat => sample_gaussian_ref (i, j) (i, j + 1) mat) m s)).
Proof.
  apply for_each_inv with (P := shaped r c).
  intros j a s0 Ha. apply shaped_sample_gaussian_ref; exact Ha.
Qed.

Lemma sample_row_pairs_skip r c i (m : DenseMatrix Scalar) s (js : list nat) :
  shaped r c m ->
  snd (for_each js (fun j mat => sample_gaussian_ref (i, j) (i, j + 1) mat) m s)
  = rand_skip (length js * 2) s.
Proof.
  apply for_each_skip with (P := shaped r c).
  intros j a s0 Ha. split.
  - apply shaped_sample_gaussian_ref; exact Ha.
  - rewrite sample_gaussian_ref_eq. reflexivity.
Qed.

Lemma sample_row_shaped r c i (m : DenseMatrix Scalar) s :
  shaped r c m -> shaped r c (fst (sample_row i m s)).
Proof.
  intros H. unfold sample_row, bind.
  pose proof (sample_row_pairs_shaped i s (pair_starts (cols m)) H) as H1.
  destruct (for_each _ _ m s) as [m1 s1]. simpl in H1.
  destruct (negb (cols m1 mod 2 =? 0)).
  - apply shaped_sample_gaussian_ref; exact H1.
  - exact H1.
Qed.

Lemma sample_row_skip r c i (m : DenseMatrix Scalar) s :
  shaped r c m -> snd (sample_row i m s) = rand_skip (row_draws c) s.
Proof.
  intros H. unfold sample_row, bind, row_draws.
  pose proof (sample_row_pairs_shaped i s (pair_starts (cols m)) H) as H1.
  pose proof (sample_row_pairs_skip i s (pair_starts (cols m)) H) as H2.
  destruct (for_each _ _ m s) as [m1 s1]. simpl in H1, H2.
  rewrite pair_starts_length in H2.
  destruct H as (_ & _ & Hc). destruct H1 as (_ & _ & Hc1).
  rewrite Hc in H2. rewrite Hc1.
  destruct (c mod 2 =? 0); simpl.
  - rewrite Nat.add_0_r. exact H2.
  - rewrite sample_gaussian_ref_eq. simpl snd. rewrite rand_skip_add. rewrite H2. reflexivity.
Qed.

Lemma sample_gaussian_shaped r c (m : DenseMatrix Scalar) s :
  shaped r c m -> shaped r c (fst (sample_gaussian m s)).
Proof.
  unfold sample_gaussian. apply for_each_inv with (P := shaped r c).
  intros i a s0 Ha. apply sample_row_shaped; exact Ha.
Qed.

Lemma sample_gaussian_skip r c (m : DenseMatrix Scalar) s :
  shaped r c m -> snd (sample_gaussian m s) = rand_skip (r * row_draws c) s.
Proof.
  intros H. unfold sample_gaussian.
  rewrite for_each_skip with (P := shaped r c) (k := row_draws c); auto.
  - rewrite length_seq. destruct H as (_ & -> & _). reflexivity.
  - intros i a s0 Ha. split.
    + apply sample_row_shaped; exact Ha.
    + apply sample_row_skip with (r := r); exact Ha.
Qed.

Lemma shaped_new_matrix p q : shaped p q (new_matrix p q).
Proof.
  repeat split.
  - apply well_formed_new_matrix.
  - apply cols_new_matrix.
Qed.

(** A matrix without columns is left as it is, and nothing is drawn. *)
Lemma sample_row_no_columns i (m : DenseMatrix Scalar) s :
  columns m = [] -> sample_row i m s = (m, s).
Proof.
  intros H. unfold sample_row, bind, cols. rewrite H. simpl.
  unfold cols. rewrite H. reflexivity.
Qed.

Lemma sample_gaussian_no_columns (m : DenseMatrix Scalar) s :
  columns m = [] -> sample_gaussian m s = (m, s).
Proof.
  intros H. unfold sample_gaussian.
  generalize (seq 0 (rows m)) as idx. induction idx as [|i idx IH]; simpl; auto.
  unfold bind. rewrite sample_row_no_columns by exact H. exact IH.
Qed.

End SamplerFacts.

(** ** The orthonormalizer as a function on the list of columns *)

Section GramSchmidtFacts.

Context {Scalar : Type} {ops : ScalarOps Scalar}.

Lemma list_set_middle {A : Type} (pre : list A) c post v :
  list_set (pre ++ c :: post) (length pre) v = pre ++ v :: post.
Proof. induction pre as [|a pre IH]; simpl; [reflexivity | f_equal; exact IH]. Qed.

Lemma col_middle r (pre : list (ScalarVector Scalar)) c post :
  col (mkDense r (pre ++ c :: post)) (length pre) = c.
Proof. unfold col; simpl. apply nth_middle. Qed.

Lemma col_prefix r (pre : list (ScalarVector Scalar)) tail j :
  j < length pre -> col (mkDense r (pre ++ tail)) j = nth j pre [].
Proof. intros H. unfold col; simpl. apply app_nth1; exact H. Qed.

Lemma set_col_middle r (pre : list (ScalarVector Scalar)) c post v :
  set_col (mkDense r (pre ++ c :: post)) (length pre) v = mkDense r (pre ++ v :: post).
Proof. unfold set_col; simpl. rewrite list_set_middle. reflexivity. Qed.

Lemma map_nth_seq {A : Type} (l : list A) d :
  map (fun j => nth j l d) (seq 0 (length l)) = l.
Proof.
  induction l as [|a l IH]; simpl; auto.
  f_equal. rewrite <- seq_shift, map_map. exact IH.
Qed.

(** The inner loop changes column [i] alone, into its projection. *)
Lemma inner_loop_columns r (pre : list (ScalarVector Scalar)) post (js : list nat) :
  (forall j, In j js -> j < length pre) ->
  forall c,
  fold_left (project_out (length pre)) js (mkDense r (pre ++ c :: post))
  = mkDense r (pre ++ project (map (fun j => nth j pre []) js) c :: post).
Proof.
  induction js as [|j js IH]; intros Hjs c; simpl; auto.
  unfold project_out at 2. rewrite col_middle, set_col_middle.
  rewrite col_prefix by (apply Hjs; left; reflexivity).
  rewrite IH by (intros j' Hj'; apply Hjs; right; exact Hj').
  reflexivity.
Qed.

Lemma zero_from_columns r (pre tail : list (ScalarVector Scalar)) :
  fold_left (fun m k => set_col m k (vzero (col m k)))
            (seq (length pre) (length tail)) (mkDense r (pre ++ tail))
  = mkDense r (pre ++ map vzero tail).
Proof.
  revert pre; induction tail as [|c tail IH]; intros pre; simpl; auto.
  rewrite col_middle, set_col_middle.
  replace (pre ++ vzero c :: tail) with ((pre ++ [vzero c]) ++ tail)
    by (rewrite <- app_assoc; reflexivity).
  replace (Datatypes.S (length pre)) with (length (pre ++ [vzero c]))
    by (rewrite length_app; simpl; lia).
  rewrite IH. rewrite <- app_assoc. reflexivity.
Qed.

(** The loop of the source computes [orthonormalize]. *)
Lemma gram_schmidt_loop_columns r (todo done : list (ScalarVector Scalar)) :
  gram_schmidt_loop (seq (length done) (length todo)) (mkDense r (done ++ todo))
  = mkDense r (orthonormalize done todo).
Proof.
  revert done; induction todo as [|c rest IH]; intros done; simpl.
  - rewrite app_nil_r. reflexivity.
  - rewrite inner_loop_columns by (intros j Hj; apply in_seq in Hj; lia).
    rewrite map_nth_seq, col_middle.
    destruct (s_ltb (norm (project done c)) literal_EPS).
    + unfold zero_from, cols. simpl columns.
      replace (length (done ++ project done c :: rest) - length done)
        with (length (project done c :: rest))
        by (rewrite length_app; simpl; lia).
      rewrite zero_from_columns. reflexivity.
    + rewrite set_col_middle.
      replace (done ++ vdiv (project done c) (norm (project done c)) :: rest)
        with ((done ++ [vdiv (project done c) (norm (project done c))]) ++ rest)
        by (rewrite <- app_assoc; reflexivity).
      replace (Datatypes.S (length done))
        with (length (done ++ [vdiv (project done c) (norm (project done c))]))
        by (rewrite length_app; simpl; lia).
      apply IH.
Qed.

Theorem gram_schmidt_columns (m : DenseMatrix Scalar) :
  gram_schmidt m = mkDense (nrows m) (orthonormalize [] (columns m)).
Proof.
  destruct m as [r cs]. unfold gram_schmidt, cols. simpl.
  exact (gram_schmidt_loop_columns r cs []).
Qed.

Lemma orthonormalize_prefix (todo done : list (ScalarVector Scalar)) :
  exists tail, orthonormalize done todo = done ++ tail /\ length tail = length todo.
Proof.
  revert done; induction todo as [|c rest IH]; intros done; simpl.
  - exists []. rewrite app_nil_r. auto.
  - destruct (s_ltb _ _).
    + eexists. split; [reflexivity|]. simpl. rewrite length_map. reflexivity.
    + destruct (IH (done ++ [vdiv (project done c) (norm (project done c))])) as [tail [E L]].
      rewrite E, <- app_assoc. eexists. split; [reflexivity|]. simpl. lia.
Qed.

Lemma orthonormalize_firstn (todo done : list (ScalarVector Scalar)) :
  firstn (length done) (orthonormalize done todo) = done.
Proof.
  destruct (orthonormalize_prefix todo done) as [tail [-> _]].
  rewrite firstn_app, Nat.sub_diag, firstn_all. simpl. apply app_nil_r.
Qed.

Lemma orthonormalize_length (todo done : list (ScalarVector Scalar)) :
  length (orthonormalize done todo) = length done + length todo.
Proof.
  destruct (orthonormalize_prefix todo done) as [tail [-> L]].
  rewrite length_app. lia.
Qed.

Lemma rows_gram_schmidt (m : DenseMatrix Scalar) : rows (gram_schmidt m) = rows m.
Proof. rewrite gram_schmidt_columns. reflexivity. Qed.

Lemma cols_gram_schmidt (m : DenseMatrix Scalar) : cols (gram_schmidt m) = cols m.
Proof.
  rewrite gram_schmidt_columns. unfold cols; simpl. apply orthonormalize_length.
Qed.

Lemma gram_schmidt_no_columns (m : DenseMatrix Scalar) :
  columns m = [] -> gram_schmidt m = m.
Proof.
  intros H. rewrite gram_schmidt_columns, H. destruct m; simpl in *. subst. reflexivity.
Qed.

Lemma all_zero_vzero v : all_zero (vzero v).
Proof. unfold all_zero, vzero. apply Forall_forall. intros x Hx.
  apply in_map_iff in Hx. destruct Hx as [? [<- _]]. reflexivity. Qed.

Lemma all_zero_nth_vzero (l : list (ScalarVector Scalar)) k :
  all_zero (nth k (map vzero l) []).
Proof.
  destruct (Nat.lt_ge_cases k (length (map vzero l))) as [H|H].
  - rewrite nth_indep with (d' := vzero []) by exact H.
    rewrite map_nth. apply all_zero_vzero.
  - rewrite nth_overflow by exact H. constructor.
Qed.

(** The collapse point [p] of [orthonormalize done todo]: the columns
    before it were each divided by a norm not below the threshold, the
    norm of column [p] was below it, and from [p] on every column is
    zero. *)
Lemma orthonormalize_collapse (todo done : list (ScalarVector Scalar)) :
  exists p, p <= length todo /\
    (forall t, t < p ->
       let w := project (firstn (length done + t) (orthonormalize done todo)) (nth t todo []) in
       s_ltb (norm w) literal_EPS = false
       /\ nth (length done + t) (orthonormalize done todo) [] = vdiv w (norm w)) /\
    (p < length todo ->
       s_ltb (norm (project (firstn (length done + p) (orthonormalize done todo)) (nth p todo [])))
             literal_EPS = true) /\
    (forall k, p <= k -> all_zero (nth (length done + k) (orthonormalize done todo) [])).
Proof.
  revert done; induction todo as [|c rest IH]; intros done.
  - exists 0. simpl. repeat split; try lia.
    intros k _. rewrite nth_overflow by lia. constructor.
  - simpl orthonormalize. destruct (s_ltb (norm (project done c)) literal_EPS) eqn:E.
    + exists 0. repeat split; try lia.
      * intros _. rewrite Nat.add_0_r, firstn_app, Nat.sub_diag, firstn_all.
        simpl. rewrite app_nil_r. exact E.
      * intros k _. rewrite app_nth2 by lia.
        replace (length done + k - length done) with k by lia.
        change (vzero (project done c) :: map vzero rest)
          with (map vzero (project done c :: rest)).
        apply all_zero_nth_vzero.
    + set (q := vdiv (project done c) (norm (project done c))) in *.
      destruct (IH (done ++ [q])) as [p (Hp & H1 & H2 & H3)].
      assert (L : length (done ++ [q]) = Datatypes.S (length done))
        by (rewrite length_app; simpl; lia).
      rewrite L in *.
      exists (Datatypes.S p). repeat split.
      * simpl; lia.
      * destruct t as [|t].
        -- rewrite Nat.add_0_r.
           pose proof (orthonormalize_firstn rest (done ++ [q])) as F.
           rewrite L in F.
           assert (F' : firstn (length done) (orthonormalize (done ++ [q]) rest) = done).
           { replace (length done) with (Nat.min (length done) (Datatypes.S (length done))) by lia.
             rewrite <- firstn_firstn, F, firstn_app, Nat.sub_diag, firstn_all.
             simpl. apply app_nil_r. }
           rewrite F'. simpl. exact E.
        -- replace (length done + Datatypes.S t) with (Datatypes.S (length done) + t) by lia.
           simpl nth. apply (H1 t). lia.
      * destruct t as [|t].
        -- rewrite Nat.add_0_r.
           pose proof (orthonormalize_firstn rest (done ++ [q])) as F.
           rewrite L in F.
           assert (F' : firstn (length done) (orthonormalize (done ++ [q]) rest) = done).
           { replace (length done) with (Nat.min (length done) (Datatypes.S (length done))) by lia.
             rewrite <- firstn_firstn, F, firstn_app, Nat.sub_diag, firstn_all.
             simpl. apply app_nil_r. }
           rewrite F'. simpl nth.
           destruct (orthonormalize_prefix rest (done ++ [q])) as [tail [-> _]].
           rewrite <- app_assoc. simpl. rewrite nth_middle. reflexivity.
        -- replace (length done + Datatypes.S t) with (Datatypes.S (length done) + t) by lia.
           simpl nth. apply (H1 t). lia.
      * intros Hlt. simpl in Hlt.
        replace (length done + Datatypes.S p) with (Datatypes.S (length done) + p) by lia.
        simpl nth. apply H2. lia.
      * intros k Hk. destruct k as [|k]; [lia|].
        replace (length done + Datatypes.S k) with (Datatypes.S (length done) + k) by lia.
        apply H3. lia.
Qed.

End GramSchmidtFacts.

(** ** The engines, unfolded *)

Section EngineFacts.

Context {Scalar : Type} {ops : ScalarOps Scalar} {rng : RandSource}
        {solvers : DenseSolvers Scalar}.

Lemma compute_svd_eq A rank s :
  RedSVD.compute_svd A rank s =
  (bdcsvd_thin (core_C A rank s), sketch_Z A rank s, sketch_Y A rank s,
   snd (sketch_P A rank s)).
Proof.
  unfold RedSVD.compute_svd, core_C, sketch_Z, sketch_P, sketch_B, sketch_Y, sketch_O,
    effective_rank, bind, ret.
  destruct (sample_gaussian (new_matrix (rows A) _) s) as [O s1]. simpl.
  destruct (sample_gaussian (new_matrix _ _) s1) as [P s2]. reflexivity.
Qed.

Lemma compute_eq A rank this s :
  RedSVD.compute A rank this s =
  (RedSVD.mkEngine
     (mat_mul (sketch_Z A rank s) (svd_matrixU (bdcsvd_thin (core_C A rank s))))
     (svd_singularValues (bdcsvd_thin (core_C A rank s)))
     (mat_mul (sketch_Y A rank s) (svd_matrixV (bdcsvd_thin (core_C A rank s)))),
   snd (sketch_P A rank s)).
Proof. unfold RedSVD.compute, bind. rewrite compute_svd_eq. reflexivity. Qed.

Lemma compute_V_eq A rank this s :
  RedSVD.compute_V A rank this s =
  (RedSVD.mkEngine
     (RedSVD.m_matrixU this)
     (svd_singularValues (bdcsvd_thin (core_C A rank s)))
     (mat_mul (sketch_Y A rank s) (svd_matrixV (bdcsvd_thin (core_C A rank s)))),
   snd (sketch_P A rank s)).
Proof. unfold RedSVD.compute_V, bind. rewrite compute_svd_eq. reflexivity. Qed.

Lemma compute_U_eq A rank this s :
  RedSVD.compute_U A rank this s =
  (RedSVD.mkEngine
     (mat_mul (sketch_Z A rank s) (svd_matrixU (bdcsvd_thin (core_C A rank s))))
     (svd_singularValues (bdcsvd_thin (core_C A rank s)))
     (RedSVD.m_matrixV this),
   snd (sketch_P A rank s)).
Proof. unfold RedSVD.compute_U, bind. rewrite compute_svd_eq. reflexivity. Qed.

(** Sizes of the sketches *)
Lemma sketch_O_shaped A rank s :
  shaped (rows A) (effective_rank A rank) (fst (sketch_O A rank s)).
Proof. apply sample_gaussian_shaped, shaped_new_matrix. Qed.

Lemma rows_sketch_Y A rank s : rows (sketch_Y A rank s) = cols A.
Proof. unfold sketch_Y. rewrite rows_gram_schmidt, rows_mat_mul. apply rows_transpose. Qed.

Lemma cols_sketch_Y A rank s : cols (sketch_Y A rank s) = effective_rank A rank.
Proof.
  unfold sketch_Y. rewrite cols_gram_schmidt, cols_mat_mul.
  apply (sketch_O_shaped A rank s).
Qed.

Lemma cols_sketch_B A rank s : cols (sketch_B A rank s) = effective_rank A rank.
Proof. unfold sketch_B. rewrite cols_mat_mul. apply cols_sketch_Y. Qed.

Lemma sketch_P_shaped A rank s :
  shaped (effective_rank A rank) (effective_rank A rank) (fst (sketch_P A rank s)).
Proof.
  unfold sketch_P. rewrite cols_sketch_B. apply sample_gaussian_shaped, shaped_new_matrix.
Qed.

Lemma rows_sketch_Z A rank s : rows (sketch_Z A rank s) = rows A.
Proof. unfold sketch_Z. rewrite rows_gram_schmidt. reflexivity. Qed.

Lemma cols_sketch_Z A rank s : cols (sketch_Z A rank s) = effective_rank A rank.
Proof.
  unfold sketch_Z. rewrite cols_gram_schmidt, cols_mat_mul.
  apply (sketch_P_shaped A rank s).
Qed.



(** The Range Finder of the specification, unfolded *)
Lemma range_finder_eq (M : DenseMatrix Scalar) r s :
  range_finder M r s =
  (gram_schmidt (mat_mul (transpose M) (fst (sample_gaussian (new_matrix (rows M) r) s))),
   snd (sample_gaussian (new_matrix (rows M) r) s)).
Proof.
  unfold range_finder, bind, ret.
  destruct (sample_gaussian (new_matrix (rows M) r) s); reflexivity.
Qed.

Lemma rows_range_finder (M : DenseMatrix Scalar) r s :
  rows (fst (range_finder M r s)) = cols M.
Proof.
  rewrite range_finder_eq. simpl. rewrite rows_gram_schmidt, rows_mat_mul.
  apply rows_transpose.
Qed.

Lemma eigen_compute_eq A rank this s :
  RedSymEigen.compute A rank this s =
  if (cols A =? 0) || (rows A =? 0) then (this, s) else
  (RedSymEigen.mkEngine
     (eig_eigenvalues (self_adjoint_eigen (eigen_B A rank s)))
     (mat_mul (eigen_Y A rank s) (eig_eigenvectors (self_adjoint_eigen (eigen_B A rank s)))),
   snd (sketch_O A rank s)).
Proof.
  unfold RedSymEigen.compute, eigen_B, eigen_Y, sketch_Y, sketch_O, effective_rank, bind, ret.
  destruct ((cols A =? 0) || (rows A =? 0)); [reflexivity|].
  destruct (sample_gaussian (new_matrix (rows A) _) s) as [O s1]. reflexivity.
Qed.

Lemma rows_eigen_B A rank s : rows (eigen_B A rank s) = effective_rank A rank.
Proof.
  unfold eigen_B, eigen_Y. rewrite !rows_mat_mul, rows_transpose. apply cols_sketch_Y.
Qed.

Lemma cols_eigen_B A rank s : cols (eigen_B A rank s) = effective_rank A rank.
Proof. unfold eigen_B, eigen_Y. rewrite cols_mat_mul. apply cols_sketch_Y. Qed.

End EngineFacts.

(** ** Rank clamping *)

Lemma clamp_rank_min rank r c :
  clamp_rank rank r c = Z.min rank (Z.min (Z.of_nat r) (Z.of_nat c)).
Proof.
  unfold clamp_rank.
  destruct (Z.ltb_spec rank (Z.of_nat c)).
  - destruct (Z.ltb_spec rank (Z.of_nat r)); lia.
  - destruct (Z.ltb_spec (Z.of_nat c) (Z.of_nat r)); lia.
Qed.

Lemma to_int_small z : (- 2 ^ 31 <= z < 2 ^ 31)%Z -> to_int z = z.
Proof.
  intros H. unfold to_int.
  rewrite Z.mod_small by lia. lia.
Qed.

(** The ranks the engines complete on are the ranks that are not
    negative, whatever the size of the matrix. *)
Lemma accepts_rank_iff rank r c : accepts_rank rank r c = true <-> (0 <= rank)%Z.
Proof.
  unfold accepts_rank. rewrite clamp_rank_min, Z.leb_le. lia.
Qed.

(** ** Properties of the engines *)

Section EngineTheorems.

Context {Scalar : Type} {ops : ScalarOps Scalar} {rng : RandSource}
        {solvers : DenseSolvers Scalar}.

(** C1 (amended): for a rank that is not negative, in [compute_svd] the
    first sketch [Y] is the Range Finder run on [A], and the second
    sketch [Z] is the Range Finder run on the transpose of [B = A * Y],
    from the generator state the first run left: a Gaussian [P] of
    [cols(B)] rows, the sketch [B * P], orthonormalized.  [Y] has
    [cols(A)] rows, [Z] has [rows(A)] rows, and both have as many columns
    as the clamped rank. *)
Theorem second_sketch_is_range_finder_on_transposed_B
        (A : DenseMatrix Scalar) (rank : Z) (s : rand_state) :
  (0 <= rank)%Z ->
  let r := effective_rank A rank in
  let first := range_finder A r s in
  let Y := fst first in
  let B := mat_mul A Y in
  let second := range_finder (transpose B) r (snd first) in
  let Z := fst second in
  RedSVD.compute_svd A rank s
    = (bdcsvd_thin (mat_mul (transpose Z) B), Z, Y, snd second)
  /\ rows Y = cols A /\ cols Y = r /\ rows Z = rows A /\ cols Z = r.
Proof.
  intros _. cbv zeta. rewrite !range_finder_eq. cbn [fst snd].
  rewrite transpose_involutive by apply well_formed_mat_mul.
  rewrite rows_transpose.
  split; [apply compute_svd_eq|].
  pose proof (rows_sketch_Y A rank s). pose proof (cols_sketch_Y A rank s).
  pose proof (rows_sketch_Z A rank s). pose proof (cols_sketch_Z A rank s).
  auto.
Qed.

(** C3 (amended): on a matrix with no rows or no columns
    [RedSymEigen::compute] returns at once and changes nothing: the two
    result fields keep the values they had and no random value is drawn.
    The results are empty when the engine held none before, as in the
    constructors. *)
Theorem sym_eigen_empty_input_changes_nothing
        (A : DenseMatrix Scalar) (rank : Z) (this : RedSymEigen.engine) (s : rand_state) :
  rows A = 0 \/ cols A = 0 ->
  RedSymEigen.compute A rank this s = (this, s)
  /\ RedSymEigen.construct_rank A rank s = (RedSymEigen.empty, s)
  /\ RedSymEigen.construct A s = (RedSymEigen.empty, s).
Proof.
  intros H.
  assert (G : (cols A =? 0) || (rows A =? 0) = true).
  { destruct H as [H|H]; rewrite H; simpl; auto using orb_true_r. }
  unfold RedSymEigen.construct_rank, RedSymEigen.construct.
  rewrite !eigen_compute_eq, G. auto.
Qed.

(** C4 (amended), for a rank that is not negative: [compute] replaces
    all three result fields, whatever they held; [compute_V] replaces [S]
    and [V] with the values [compute] would store and leaves [U] as it
    was; [compute_U] replaces [S] and [U] and leaves [V] as it was;
    [RedSymEigen::compute] replaces both of its fields when the matrix
    has a row and a column, and leaves both as they were when it has
    none. *)
Theorem compute_overwrites_what_it_computes
        (A : DenseMatrix Scalar) (rank : Z) (this other : RedSVD.engine)
        (e e' : RedSymEigen.engine) (s : rand_state) :
  (0 <= rank)%Z ->
  RedSVD.compute A rank this s = RedSVD.compute A rank other s
  /\ (RedSVD.m_matrixU (fst (RedSVD.compute_V A rank this s)) = RedSVD.m_matrixU this
      /\ RedSVD.m_vectorS (fst (RedSVD.compute_V A rank this s))
         = RedSVD.m_vectorS (fst (RedSVD.compute A rank other s))
      /\ RedSVD.m_matrixV (fst (RedSVD.compute_V A rank this s))
         = RedSVD.m_matrixV (fst (RedSVD.compute A rank other s)))
  /\ (RedSVD.m_matrixV (fst (RedSVD.compute_U A rank this s)) = RedSVD.m_matrixV this
      /\ RedSVD.m_vectorS (fst (RedSVD.compute_U A rank this s))
         = RedSVD.m_vectorS (fst (RedSVD.compute A rank other s))
      /\ RedSVD.m_matrixU (fst (RedSVD.compute_U A rank this s))
         = RedSVD.m_matrixU (fst (RedSVD.compute A rank other s)))
  /\ (if (cols A =? 0) || (rows A =? 0)
      then RedSymEigen.compute A rank e s = (e, s)
      else RedSymEigen.compute A rank e s = RedSymEigen.compute A rank e' s).
Proof.
  intros _. rewrite !compute_eq, compute_V_eq, compute_U_eq, !eigen_compute_eq.
  cbn [fst RedSVD.m_matrixU RedSVD.m_vectorS RedSVD.m_matrixV].
  destruct ((cols A =? 0) || (rows A =? 0)); auto 10.
Qed.

(** C6, for the two partial variants that compile and a rank that is
    not negative: from the same generator state, and whatever the
    engines held before, [compute_U] stores the [U] and [S] that
    [compute] stores, [compute_V] stores the [S] and [V] that [compute]
    stores, and all three leave the generator in the same state. *)
Theorem partial_variants_agree_with_compute
        (A : DenseMatrix Scalar) (rank : Z) (this other : RedSVD.engine) (s : rand_state) :
  (0 <= rank)%Z ->
  let full := RedSVD.compute A rank other s in
  let u := RedSVD.compute_U A rank this s in
  let v := RedSVD.compute_V A rank this s in
  RedSVD.m_matrixU (fst u) = RedSVD.m_matrixU (fst full)
  /\ RedSVD.m_vectorS (fst u) = RedSVD.m_vectorS (fst full)
  /\ RedSVD.m_vectorS (fst v) = RedSVD.m_vectorS (fst full)
  /\ RedSVD.m_matrixV (fst v) = RedSVD.m_matrixV (fst full)
  /\ snd u = snd full /\ snd v = snd full.
Proof.
  intros _. cbv zeta. rewrite compute_eq, compute_V_eq, compute_U_eq. cbn. auto 10.
Qed.


(** C9 (amended): on a matrix with no rows or no columns, and a rank
    that is not negative, [RedSVD::compute] does not stop at its guard:
    the sizes it builds matrices with are accepted, the clamped rank is
    0, the sketches have no columns, the core is the [0 x 0] matrix, the
    solver is run on it and its factors are lifted and stored; no random
    value is drawn. *)
Theorem svd_empty_input_runs_the_pipeline
        (A : DenseMatrix Scalar) (rank : Z) (this : RedSVD.engine) (s : rand_state) :
  rows A = 0 \/ cols A = 0 -> (0 <= rank)%Z ->
  let C0 := mkDense 0 [] in
  accepts_rank rank (rows A) (cols A) = true
  /\ effective_rank A rank = 0
  /\ RedSVD.compute_svd A rank s
     = (bdcsvd_thin C0, mkDense (rows A) [], mkDense (cols A) [], s)
  /\ RedSVD.compute A rank this s
     = (RedSVD.mkEngine
          (mat_mul (mkDense (rows A) []) (svd_matrixU (bdcsvd_thin C0)))
          (svd_singularValues (bdcsvd_thin C0))
          (mat_mul (mkDense (cols A) []) (svd_matrixV (bdcsvd_thin C0))),
        s).
Proof.
  intros Hdim Hrank C0.
  assert (Hr : effective_rank A rank = 0).
  { unfold effective_rank. rewrite clamp_rank_min. destruct Hdim as [H|H]; rewrite H; lia. }
  assert (HO : sketch_O A rank s = (mkDense (rows A) [], s)).
  { unfold sketch_O. rewrite Hr. apply sample_gaussian_no_columns. reflexivity. }
  assert (HY : sketch_Y A rank s = mkDense (cols A) []).
  { unfold sketch_Y. rewrite HO. apply gram_schmidt_no_columns. reflexivity. }
  assert (HP : sketch_P A rank s = (mkDense 0 [], s)).
  { unfold sketch_P, sketch_B. rewrite HY, HO, Hr. apply sample_gaussian_no_columns.
    reflexivity. }
  assert (HZ : sketch_Z A rank s = mkDense (rows A) []).
  { unfold sketch_Z, sketch_B. rewrite HP, HY. apply gram_schmidt_no_columns. reflexivity. }
  assert (HC : core_C A rank s = C0).
  { unfold core_C, sketch_B. rewrite HZ, HY. reflexivity. }
  split; [apply accepts_rank_iff; exact Hrank|].
  split; [exact Hr|].
  rewrite compute_eq, compute_svd_eq, HC, HZ, HY, HP. auto.
Qed.

(** C10: for a matrix whose smaller dimension fits the [int] that holds
    it, the one-argument constructors of both engines run [compute] on a
    fresh engine with the rank [min(rows(A), cols(A))]. *)
Theorem one_argument_constructors_use_smaller_dimension
        (A : DenseMatrix Scalar) (s : rand_state) :
  (Z.of_nat (Nat.min (rows A) (cols A)) < 2 ^ 31)%Z ->
  default_rank (rows A) (cols A) = Z.of_nat (Nat.min (rows A) (cols A))
  /\ RedSVD.construct A s
     = RedSVD.compute A (Z.of_nat (Nat.min (rows A) (cols A))) RedSVD.empty s
  /\ RedSymEigen.construct A s
     = RedSymEigen.compute A (Z.of_nat (Nat.min (rows A) (cols A))) RedSymEigen.empty s.
Proof.
  intros H.
  assert (E : default_rank (rows A) (cols A) = Z.of_nat (Nat.min (rows A) (cols A))).
  { unfold default_rank. destruct (Nat.ltb_spec (rows A) (cols A)).
    - rewrite Nat.min_l in * by lia. apply to_int_small. lia.
    - rewrite Nat.min_r in * by lia. apply to_int_small. lia. }
  unfold RedSVD.construct, RedSymEigen.construct. rewrite E. auto.
Qed.

End EngineTheorems.

(** ** Closed examples for the engines, over the reals *)

Lemma one_by_one (m : DenseMatrix R) :
  well_formed m -> rows m = 1 -> cols m = 1 -> exists b, columns m = [[b]].
Proof.
  destruct m as [r cs]. unfold well_formed, rows, cols; simpl.
  intros Hw -> Hc.
  destruct cs as [|c [|c' cs]]; simpl in Hc; try discriminate.
  inversion Hw as [|? ? Hlen _]; subst.
  destruct c as [|b [|b' c]]; simpl in Hlen; try discriminate.
  exists b. reflexivity.
Qed.

(** C1, as stated: for the [2 x 1] matrix of ones and rank 1, the [Z]
    that [compute_svd] writes has 2 rows, and the Range Finder run on
    [B = A * Y] gives a matrix of 1 row, from whatever generator state;
    so [Z] is not the Range Finder's result on [B]. *)
Lemma second_sketch_is_not_range_finder_on_B :
  let res := RedSVD.compute_svd A_2x1 1 s_zeros in
  let Zm := snd (fst (fst res)) in
  let Y := snd (fst res) in
  let B := mat_mul A_2x1 Y in
  rows Zm = 2
  /\ (forall s, rows (fst (range_finder B 1 s)) = 1)
  /\ (forall s, fst (range_finder B 1 s) <> Zm).
Proof.
  cbv zeta. rewrite compute_svd_eq. cbn [fst snd].
  assert (HZ : rows (sketch_Z A_2x1 1 s_zeros) = 2) by apply rows_sketch_Z.
  assert (HB : forall s, rows (fst (range_finder (mat_mul A_2x1 (sketch_Y A_2x1 1 s_zeros)) 1 s)) = 1).
  { intros s. rewrite rows_range_finder, cols_mat_mul, cols_sketch_Y. reflexivity. }
  split; [exact HZ|]. split; [exact HB|].
  intros s E. specialize (HB s). rewrite E, HZ in HB. discriminate.
Qed.

(** C3, as stated: an engine that holds the result of [compute] on the
    [1 x 1] matrix [(2)] still holds one eigenvalue and one eigenvector
    after [compute] on the [0 x 0] matrix. *)
Lemma sym_eigen_empty_input_keeps_old_results :
  let first := RedSymEigen.compute A_1x1 1 RedSymEigen.empty s_zeros in
  let second := RedSymEigen.compute A_0x0 1 (fst first) (snd first) in
  length (RedSymEigen.m_eigenvalues (fst second)) = 1
  /\ cols (RedSymEigen.m_eigenvectors (fst second)) = 1.
Proof.
  cbv zeta. rewrite (eigen_compute_eq A_0x0). cbn [cols rows A_0x0 columns nrows length
    Nat.eqb orb fst snd].
  rewrite eigen_compute_eq. cbn [cols rows A_1x1 columns nrows length Nat.eqb orb fst snd].
  destruct (one_by_one (m := eigen_B A_1x1 1 s_zeros)) as [b Hb].
  - apply well_formed_mat_mul.
  - rewrite rows_eigen_B. reflexivity.
  - rewrite cols_eigen_B. reflexivity.
  - cbn [self_adjoint_eigen small_solvers]. unfold eig_small. rewrite Hb.
    cbn [eig_eigenvalues eig_eigenvectors RedSymEigen.m_eigenvalues
         RedSymEigen.m_eigenvectors length].
    split; [reflexivity|]. rewrite cols_mat_mul. reflexivity.
Qed.

Lemma sym_eigen_empty_input_changes_nothing_witness :
  (rows A_0x2 = 0 \/ cols A_0x2 = 0)
  /\ RedSymEigen.compute A_0x2 3 RedSymEigen.empty s_zeros = (RedSymEigen.empty, s_zeros).
Proof.
  split.
  - left. reflexivity.
  - exact (proj1 (sym_eigen_empty_input_changes_nothing A_0x2 3 RedSymEigen.empty s_zeros
                    (or_introl eq_refl))).
Defined.

(** C4, as stated: after [compute] on a [2 x 1] matrix and then
    [compute_V] on a [1 x 1] matrix, the field [U] is still the one the
    first call stored: it has 2 rows, and the second matrix has 1. *)
Lemma compute_V_keeps_the_old_U :
  let first := RedSVD.compute A_2x1 1 RedSVD.empty s_zeros in
  let second := RedSVD.compute_V A_1x1 1 (fst first) (snd first) in
  RedSVD.m_matrixU (fst second) = RedSVD.m_matrixU (fst first)
  /\ rows (RedSVD.m_matrixU (fst second)) = 2
  /\ rows A_1x1 = 1.
Proof.
  cbv zeta. rewrite compute_V_eq. cbn [fst RedSVD.m_matrixU].
  split; [reflexivity|]. split; [|reflexivity].
  rewrite compute_eq. cbn [fst RedSVD.m_matrixU].
  rewrite rows_mat_mul. apply rows_sketch_Z.
Qed.


Lemma svd_empty_input_runs_the_pipeline_witness :
  (rows A_0x2 = 0 \/ cols A_0x2 = 0) /\ (0 <= 3)%Z
  /\ RedSVD.compute_svd A_0x2 3 s_zeros
     = (bdcsvd_thin (mkDense 0 []), mkDense 0 [], mkDense 2 [], s_zeros).
Proof.
  assert (Hrank : (0 <= 3)%Z) by discriminate.
  split; [left; reflexivity|]. split; [exact Hrank|].
  exact (proj1 (proj2 (proj2 (svd_empty_input_runs_the_pipeline A_0x2 RedSVD.empty s_zeros
                                (or_introl eq_refl) Hrank)))).
Defined.

(** C9, as stated: on the [0 x 2] matrix the rank -1 is clamped to -1,
    not to 0, so the column count [compute_svd] hands to the constructor
    of [O] is negative and the call does not go through the pipeline. *)
Lemma negative_rank_is_not_clamped_to_zero :
  (rows A_0x2 = 0 \/ cols A_0x2 = 0)
  /\ clamp_rank (-1) (rows A_0x2) (cols A_0x2) = (-1)%Z
  /\ accepts_rank (-1) (rows A_0x2) (cols A_0x2) = false.
Proof. split; [left; reflexivity|]. split; reflexivity. Qed.

Lemma one_argument_constructors_use_smaller_dimension_witness :
  (Z.of_nat (Nat.min (rows A_1x2) (cols A_1x2)) < 2 ^ 31)%Z
  /\ RedSVD.construct A_1x2 s_zeros = RedSVD.compute A_1x2 1 RedSVD.empty s_zeros.
Proof.
  split.
  - reflexivity.
  - exact (proj1 (proj2 (one_argument_constructors_use_smaller_dimension A_1x2 s_zeros
                           (eq_refl : (Z.of_nat (Nat.min (rows A_1x2) (cols A_1x2)) < 2 ^ 31)%Z)))).
Defined.

(** ** The column left over in a row of odd length *)

Section OddColumn.

Context {Scalar : Type} {ops : ScalarOps Scalar} {rng : RandSource}.

Lemma for_each_inv_in {I A : Type} (P : A -> Prop) (idx : list I) (body : I -> A -> Rand A) :
  (forall i a s, In i idx -> P a -> P (fst (body i a s))) ->
  forall a s, P a -> P (fst (for_each idx body a s)).
Proof.
  induction idx as [|i idx IH]; intros Hbody a s Ha; simpl; auto.
  unfold bind. pose proof (Hbody i a s (or_introl eq_refl) Ha) as H1.
  destruct (body i a s) as [a' s']. apply IH; auto.
  intros i0 a0 s0 Hin. apply Hbody. right; exact Hin.
Qed.

Lemma coeff_set_coeff_other_row (m : DenseMatrix Scalar) i i' j j' v :
  i <> i' -> coeff (set_coeff m i' j' v) i j = coeff m i j.
Proof.
  intros Hi. unfold coeff, set_coeff, set_col, col; simpl.
  destruct (Nat.eq_dec j' j) as [->|Hj].
  - destruct (Nat.lt_ge_cases j (length (columns m))) as [Hlt|Hge].
    + rewrite nth_list_set_eq by exact Hlt. apply nth_list_set_neq. congruence.
    + rewrite list_set_out by exact Hge. reflexivity.
  - rewrite nth_list_set_neq by exact Hj. reflexivity.
Qed.

Lemma coeff_set_coeff_same (m : DenseMatrix Scalar) i j v :
  well_formed m -> i < rows m -> j < cols m -> coeff (set_coeff m i j v) i j = v.
Proof.
  intros Hw Hi Hj. unfold coeff, set_coeff, set_col, col; simpl.
  rewrite nth_list_set_eq by exact Hj.
  apply nth_list_set_eq.
  unfold well_formed in Hw. rewrite Forall_forall in Hw.
  rewrite (Hw (nth j (columns m) [])) by (apply nth_In; exact Hj). exact Hi.
Qed.

Lemma sample_gaussian_ref_other_row (m : DenseMatrix Scalar) i i' a b j s :
  i <> i' -> coeff (fst (sample_gaussian_ref (i', a) (i', b) m s)) i j = coeff m i j.
Proof.
  intros Hi. rewrite sample_gaussian_ref_eq. cbn [fst snd].
  rewrite !coeff_set_coeff_other_row by exact Hi. reflexivity.
Qed.

Lemma sample_row_other_row (m : DenseMatrix Scalar) i i' j s :
  i <> i' -> coeff (fst (sample_row i' m s)) i j = coeff m i j.
Proof.
  intros Hi. unfold sample_row, bind.
  pose proof (for_each_inv (fun m' => coeff m' i j = coeff m i j)
                (pair_starts (cols m))
                (fun j0 mat => sample_gaussian_ref (i', j0) (i', j0 + 1) mat)) as H.
  specialize (H (fun j0 a s0 Ha =>
                   eq_trans (sample_gaussian_ref_other_row a j0 (j0 + 1) j s0 Hi) Ha)
                m s eq_refl).
  destruct (for_each _ _ m s) as [m1 s1]. cbn [fst] in H.
  destruct (negb (cols m1 mod 2 =? 0)).
  - rewrite sample_gaussian_ref_other_row by exact Hi. exact H.
  - exact H.
Qed.

Lemma coeff_set_coeff_other_col (m : DenseMatrix Scalar) i i' j j' v :
  j <> j' -> coeff (set_coeff m i' j' v) i j = coeff m i j.
Proof.
  intros Hj. unfold coeff, set_coeff, set_col, col; simpl.
  rewrite nth_list_set_neq by congruence. reflexivity.
Qed.

Lemma half_of_even h : 2 * h / 2 = h.
Proof. symmetry. apply Nat.div_unique with 0; lia. Qed.

Lemma half_of_odd h : (2 * h + 1) / 2 = h.
Proof. symmetry. apply Nat.div_unique with 1; lia. Qed.

Lemma even_double h : Nat.even (2 * h) = true.
Proof. rewrite Nat.even_mul. reflexivity. Qed.

Lemma even_double_plus_one h : Nat.even (2 * h + 1) = false.
Proof. rewrite Nat.add_comm, Nat.even_add_mul_2. reflexivity. Qed.

(** After the first [h] pairs of columns of row [i]: the columns of
    these pairs hold their samples, the others are untouched. *)
Lemma sample_row_pairs_coeff r c i (m : DenseMatrix Scalar) h :
  i < r -> 2 * h <= c ->
  forall s, shaped r c m ->
  (forall j, j < 2 * h ->
     coeff (fst (for_each (map (fun t => 2 * t) (seq 0 h))
                          (fun j0 mat => sample_gaussian_ref (i, j0) (i, j0 + 1) mat) m s)) i j
     = sample_value c j (rand_skip (j / 2 * 2) s))
  /\ (forall j, 2 * h <= j ->
     coeff (fst (for_each (map (fun t => 2 * t) (seq 0 h))
                          (fun j0 mat => sample_gaussian_ref (i, j0) (i, j0 + 1) mat) m s)) i j
     = coeff m i j).
Proof.
  intros Hi. induction h as [|h IH]; intros Hh s Hs.
  - split; intros j Hj; [lia | reflexivity].
  - destruct (IH ltac:(lia) s Hs) as [A B].
    pose proof (sample_row_pairs_shaped i s (map (fun t => 2 * t) (seq 0 h)) Hs) as Hs1.
    pose proof (sample_row_pairs_skip i s (map (fun t => 2 * t) (seq 0 h)) Hs) as Hk.
    rewrite length_map, length_seq in Hk.
    rewrite seq_S, map_app, for_each_app. cbn [map Nat.add for_each].
    destruct (for_each (map (fun t => 2 * t) (seq 0 h)) _ m s) as [m1 s1].
    cbn [fst snd] in *. subst s1. unfold bind.
    rewrite sample_gaussian_ref_eq. unfold ret. cbn [fst snd].
    destruct Hs1 as (Hw1 & Hr1 & Hc1).
    split; intros j Hj.
    + destruct (Nat.lt_ge_cases j (2 * h)) as [Hlt|Hge].
      * rewrite !coeff_set_coeff_other_col by lia. apply A; exact Hlt.
      * assert (Hcase : j = 2 * h \/ j = 2 * h + 1) by lia.
        destruct Hcase as [-> | ->].
        -- rewrite coeff_set_coeff_other_col by lia.
           rewrite coeff_set_coeff_same by (auto; lia).
           unfold sample_value. rewrite even_double, half_of_even.
           replace (2 * h + 1 <? c) with true by (symmetry; apply Nat.ltb_lt; lia).
           reflexivity.
        -- rewrite coeff_set_coeff_same;
             [| apply well_formed_set_coeff; exact Hw1
              | rewrite rows_set_coeff; lia
              | rewrite cols_set_coeff; lia].
           unfold sample_value. rewrite even_double_plus_one, half_of_odd.
           reflexivity.
    + rewrite !coeff_set_coeff_other_col by lia. apply B. lia.
Qed.

(** What [sample_row] leaves in each column of its row. *)
Lemma sample_row_coeff r c i (m : DenseMatrix Scalar) s j :
  shaped r c m -> i < r -> j < c ->
  coeff (fst (sample_row i m s)) i j = sample_value c j (rand_skip (j / 2 * 2) s).
Proof.
  intros Hs Hi Hj. unfold sample_row, bind, pair_starts.
  assert (Hc : cols m = c) by apply Hs. rewrite Hc.
  assert (Hh : 2 * (c / 2) <= c) by apply Nat.Div0.mul_div_le.
  destruct (sample_row_pairs_coeff (c / 2) Hi Hh s Hs) as [A B].
  pose proof (sample_row_pairs_shaped i s (map (fun t => 2 * t) (seq 0 (c / 2))) Hs) as Hs1.
  pose proof (sample_row_pairs_skip i s (map (fun t => 2 * t) (seq 0 (c / 2))) Hs) as Hk.
  rewrite length_map, length_seq in Hk.
  destruct (for_each (map (fun t => 2 * t) (seq 0 (c / 2))) _ m s) as [m1 s1].
  cbn [fst snd] in *. subst s1.
  destruct Hs1 as (Hw1 & Hr1 & Hc1). rewrite Hc1.
  pose proof (Nat.div_mod_eq c 2) as Hdm.
  pose proof (Nat.mod_upper_bound c 2 ltac:(lia)) as Hm.
  destruct (c mod 2) as [|[|k]] eqn:Hmod; [| |lia]; cbn [Nat.eqb negb].
  - unfold ret. cbn [fst]. apply A. lia.
  - rewrite sample_gaussian_ref_eq. cbn [fst snd].
    destruct (Nat.eq_dec j (c - 1)) as [->|Hne].
    + rewrite coeff_set_coeff_same;
        [| apply well_formed_set_coeff; exact Hw1
         | rewrite rows_set_coeff; lia
         | rewrite cols_set_coeff; lia].
      replace (c - 1) with (2 * (c / 2)) by lia.
      unfold sample_value. rewrite even_double, half_of_even.
      replace (2 * (c / 2) + 1 <? c) with false by (symmetry; apply Nat.ltb_ge; lia).
      reflexivity.
    + rewrite !coeff_set_coeff_other_col by exact Hne. apply A. lia.
Qed.

(** What [sample_gaussian] leaves in each coefficient: every one is
    written, with a value that depends on the generator alone. *)
Lemma sample_gaussian_coeff r c (m : DenseMatrix Scalar) s i j :
  shaped r c m -> i < r -> j < c ->
  coeff (fst (sample_gaussian m s)) i j
  = sample_value c j (rand_skip (i * row_draws c + j / 2 * 2) s).
Proof.
  intros Hs Hi Hj. unfold sample_gaussian.
  assert (Hr : rows m = r) by apply Hs. rewrite Hr.
  replace (seq 0 r) with (seq 0 i ++ [i] ++ seq (Datatypes.S i) (r - Datatypes.S i)).
  2:{ change ([i] ++ seq (Datatypes.S i) (r - Datatypes.S i))
        with (seq i (Datatypes.S (r - Datatypes.S i))).
      rewrite <- seq_app. f_equal. lia. }
  rewrite for_each_app.
  assert (H1 : shaped r c (fst (for_each (seq 0 i) sample_row m s))).
  { apply for_each_inv with (P := shaped r c); auto.
    intros i0 a s0 Ha. apply sample_row_shaped; exact Ha. }
  assert (H2 : snd (for_each (seq 0 i) sample_row m s) = rand_skip (i * row_draws c) s).
  { rewrite for_each_skip with (P := shaped r c) (k := row_draws c); auto.
    - rewrite length_seq. reflexivity.
    - intros i0 a s0 Ha. split.
      + apply sample_row_shaped; exact Ha.
      + apply sample_row_skip with (r := r); exact Ha. }
  destruct (for_each (seq 0 i) sample_row m s) as [m1 s1]. cbn [fst snd] in *. subst s1.
  rewrite for_each_app. cbn [for_each]. unfold bind at 1 2, ret at 1.
  pose proof (sample_row_coeff (rand_skip (i * row_draws c) s) H1 Hi Hj) as H3.
  destruct (sample_row i m1 (rand_skip (i * row_draws c) s)) as [m2 s2]. cbn [fst snd] in *.
  rewrite <- rand_skip_add in H3.
  assert (H5 : coeff (fst (for_each (seq (Datatypes.S i) (r - Datatypes.S i)) sample_row m2 s2))
                     i j = coeff m2 i j).
  { apply for_each_inv_in with (P := fun m' => coeff m' i j = coeff m2 i j); auto.
    intros i0 a s0 Hin Ha. apply in_seq in Hin.
    rewrite sample_row_other_row by lia. exact Ha. }
  unfold ret. cbn [fst snd]. rewrite H5, H3. reflexivity.
Qed.

Lemma matrix_ext r c (m1 m2 : DenseMatrix Scalar) :
  shaped r c m1 -> shaped r c m2 ->
  (forall i j, i < r -> j < c -> coeff m1 i j = coeff m2 i j) -> m1 = m2.
Proof.
  destruct m1 as [r1 cs1], m2 as [r2 cs2].
  unfold shaped, well_formed, rows, cols, coeff, col; simpl.
  intros (W1 & -> & C1) (W2 & -> & C2) H. f_equal.
  rewrite Forall_forall in W1, W2.
  apply nth_ext with (d := []) (d' := []); [congruence|].
  intros j Hj. rewrite C1 in Hj.
  apply nth_ext with (d := zero) (d' := zero).
  - rewrite W1, W2; auto; apply nth_In; congruence.
  - intros i Hi. rewrite W1 in Hi by (apply nth_In; congruence).
    apply H; assumption.
Qed.

(** The contents of the matrix handed to [sample_gaussian] do not
    matter: a fresh matrix may hold anything. *)
Lemma sample_gaussian_overwrites r c (m m' : DenseMatrix Scalar) s :
  shaped r c m -> shaped r c m' -> sample_gaussian m s = sample_gaussian m' s.
Proof.
  intros H H'. apply injective_projections.
  - apply matrix_ext with (r := r) (c := c).
    + apply sample_gaussian_shaped; exact H.
    + apply sample_gaussian_shaped; exact H'.
    + intros i j Hi Hj.
      rewrite (sample_gaussian_coeff s H Hi Hj), (sample_gaussian_coeff s H' Hi Hj).
      reflexivity.
  - rewrite (sample_gaussian_skip s H), (sample_gaussian_skip s H'). reflexivity.
Qed.

(** C2 (amended): in a matrix with an odd number of columns the last
    coefficient of row [i] is the second, sine-based value of the pair
    drawn by the extra call, which comes after the calls of the rows
    above and of the pairs of columns of this row; the first,
    cosine-based value of that pair is overwritten.  Every row draws one
    pair per two columns and one pair more. *)
Theorem odd_last_column_keeps_the_sine_sample
        (mat : DenseMatrix Scalar) (i : nat) (s : rand_state) :
  well_formed mat -> cols mat mod 2 = 1 -> i < rows mat ->
  let s_i := rand_skip (i * row_draws (cols mat) + cols mat / 2 * 2) s in
  let v1 := uniform (next_rand s_i) in
  let v2 := uniform (next_rand2 s_i) in
  let len := s_sqrt (s_mul (of_int (-2)) (s_log v1)) in
  coeff (fst (sample_gaussian mat s)) i (cols mat - 1)
  = s_mul len (s_sin (s_mul (s_mul (of_int 2) literal_PI) v2))
  /\ snd (sample_gaussian mat s)
     = rand_skip (rows mat * (cols mat / 2 * 2 + 2)) s.
Proof.
  intros Hw Hodd Hi. cbv zeta.
  set (r := rows mat) in *. set (c := cols mat) in *.
  assert (Hs : shaped r c mat) by (repeat split; auto).
  pose proof (Nat.div_mod_eq c 2) as Hdm.
  split.
  - rewrite (sample_gaussian_coeff s Hs Hi) by lia.
    replace (c - 1) with (2 * (c / 2)) by lia.
    unfold sample_value. rewrite even_double, half_of_even.
    replace (2 * (c / 2) + 1 <? c) with false by (symmetry; apply Nat.ltb_ge; lia).
    reflexivity.
  - rewrite (sample_gaussian_skip s Hs). unfold row_draws. rewrite Hodd. reflexivity.
Qed.

End OddColumn.

(** ** The sampler over the reals *)

Section RealSampler.

Context {rng : RandSource}.

Local Open Scope R_scope.

Lemma uniform_real k :
  uniform (Scalar := R) k = (IZR k + 1) / (IZR RAND_MAX + 2).
Proof. reflexivity. Qed.

Lemma uniform_real_bounds k :
  (0 <= k <= RAND_MAX)%Z -> 0 < uniform (Scalar := R) k < 1.
Proof.
  intros [H0 H1]. rewrite uniform_real.
  apply IZR_le in H0, H1.
  assert (Hb : 0 < IZR RAND_MAX + 2) by lra.
  split.
  - apply Rdiv_lt_0_compat; lra.
  - apply Rmult_lt_reg_r with (IZR RAND_MAX + 2); [exact Hb|].
    unfold Rdiv. rewrite Rmult_assoc, Rinv_l by lra. lra.
Qed.

End RealSampler.

(** ** The sampler in IEEE 754 arithmetic *)


(** The literal of line 46 lies within half a unit in the last place of
    [double_PI], and a [double] converted to [double] is itself. *)
Example double_PI_is_nearest :
  double_PI = S754_finite false 7074237752028440 (-51)
  /\ (2 * Z.abs (31415926535897932384626433832795028841971693993751 * 2 ^ 51
                 - 7074237752028440 * 10 ^ 49) < 10 ^ 49)%Z
  /\ ieee_of_double 53 1024 double_PI = double_PI
  /\ ieee_of_double 53 1024 double_EPS = double_EPS.
Proof. repeat split; vm_compute; reflexivity. Qed.






Lemma odd_last_column_keeps_the_sine_sample_witness :
  well_formed A_1x1 /\ cols A_1x1 mod 2 = 1 /\ 0 < rows A_1x1
  /\ coeff (fst (sample_gaussian A_1x1 s_zeros)) 0 0
     = snd (box_muller (uniform (next_rand s_zeros)) (uniform (next_rand2 s_zeros))).
Proof.
  assert (Hw : well_formed A_1x1) by (repeat constructor).
  split; [exact Hw|]. split; [reflexivity|]. split; [apply Nat.lt_0_1|].
  exact (proj1 (odd_last_column_keeps_the_sine_sample (mat := A_1x1) (i := 0) s_zeros
                  Hw eq_refl Nat.lt_0_1)).
Defined.

Section SineNotCosine.

Local Open Scope R_scope.

Lemma small_angle_sin_cos_differ theta :
  0 < theta < 1 / 100 -> sin theta <> cos theta.
Proof.
  intros [H0 H1] E.
  assert (Hs0 : 0 < sin theta).
  { apply sin_gt_0; [exact H0|]. pose proof PI2_1. lra. }
  assert (Hs1 : sin theta < theta) by (apply sin_lt_x; exact H0).
  pose proof (sin2_cos2 theta) as Hsc. unfold Rsqr in Hsc. rewrite <- E in Hsc.
  nra.
Qed.

(** C2, as stated: in the [1 x 1] matrix filled from the generator
    about to return [0, 0], the coefficient holds the second value of
    the pair the extra call draws, and that value differs from the
    first, cosine-based one. *)
Lemma odd_last_column_does_not_keep_the_cosine_sample :
  let xy := fst (sample_pair (Scalar := R) s_zeros) in
  coeff (fst (sample_gaussian A_1x1 s_zeros)) 0 0 = snd xy
  /\ snd xy <> fst xy.
Proof.
  cbv zeta. rewrite sample_pair_eq. cbn [fst].
  split.
  - assert (Hs : shaped 1 1 A_1x1) by (repeat constructor).
    exact (sample_gaussian_coeff s_zeros Hs Nat.lt_0_1 Nat.lt_0_1).
  - assert (Hv : uniform (Scalar := R) (next_rand s_zeros) = 1 / 2147483649).
    { rewrite uniform_real. cbn [next_rand std_rand scripted_rand s_zeros fst RAND_MAX].
      change (IZR 0 + 1) with (0 + 1). lra. }
    assert (Hv2 : uniform (Scalar := R) (next_rand2 s_zeros) = 1 / 2147483649).
    { rewrite uniform_real. cbn [next_rand2 std_rand scripted_rand s_zeros fst snd RAND_MAX].
      lra. }
    rewrite Hv, Hv2. unfold box_muller. cbn [fst snd s_mul s_sqrt s_log s_sin s_cos
      of_int literal_PI Rscalar].
    set (theta := 2 * _ * (1 / 2147483649)).
    set (len := sqrt (-2 * ln (1 / 2147483649))).
    assert (Hlen : 0 < len).
    { apply sqrt_lt_R0.
      assert (ln (1 / 2147483649) < ln 1) by (apply ln_increasing; lra).
      rewrite ln_1 in *. lra. }
    assert (Htheta : 0 < theta < 1 / 100) by (unfold theta; lra).
    pose proof (small_angle_sin_cos_differ Htheta) as Hsc.
    intros E. apply Hsc. apply Rmult_eq_reg_l with len; [exact E|lra].
Qed.

End SineNotCosine.

(** ** The orthonormalizer over the reals *)

Section RealGramSchmidt.

Local Open Scope R_scope.

Lemma dot_fold_shift (l : list (R * R)) a :
  fold_left (fun acc p => acc + fst p * snd p) l a
  = a + fold_left (fun acc p => acc + fst p * snd p) l 0.
Proof.
  revert a; induction l as [|p l IH]; intros a; simpl.
  - ring.
  - rewrite IH, (IH (0 + _)). ring.
Qed.

Lemma dot_cons a b (u v : ScalarVector R) : dot (a :: u) (b :: v) = a * b + dot u v.
Proof.
  unfold dot. cbn [combine fold_left fst snd s_add s_mul Rscalar zero of_int].
  rewrite dot_fold_shift. change (IZR 0) with 0. ring.
Qed.

Lemma dot_nil_l (v : ScalarVector R) : dot [] v = 0.
Proof. reflexivity. Qed.

Lemma dot_self_nonneg (v : ScalarVector R) : 0 <= dot v v.
Proof.
  induction v as [|a v IH].
  - rewrite dot_nil_l. lra.
  - rewrite dot_cons. nra.
Qed.

Lemma dot_vdiv_r (w : ScalarVector R) n : dot w (vdiv w n) = dot w w / n.
Proof.
  induction w as [|a w IH].
  - rewrite !dot_nil_l. unfold Rdiv. ring.
  - cbn [vdiv map]. fold (vdiv w n). rewrite !dot_cons, IH.
    cbn [s_div Rscalar]. unfold Rdiv. ring.
Qed.

Lemma dot_vdiv_both (w : ScalarVector R) n :
  n <> 0 -> dot (vdiv w n) (vdiv w n) = dot w w / (n * n).
Proof.
  intros Hn. induction w as [|a w IH].
  - rewrite !dot_nil_l. unfold Rdiv. ring.
  - cbn [vdiv map]. fold (vdiv w n). rewrite !dot_cons, IH.
    cbn [s_div Rscalar]. field. exact Hn.
Qed.

Lemma norm_real (v : ScalarVector R) : norm v = sqrt (dot v v).
Proof. reflexivity. Qed.

Lemma norm_sqr (v : ScalarVector R) : norm v * norm v = dot v v.
Proof. rewrite norm_real. apply sqrt_sqrt, dot_self_nonneg. Qed.

Lemma EPS_positive : 0 < literal_EPS (Scalar := R).
Proof. cbn. lra. Qed.

Lemma norm_not_below_threshold_positive (v : ScalarVector R) :
  s_ltb (norm v) literal_EPS = false -> 0 < norm v.
Proof.
  cbn [s_ltb Rscalar]. unfold Rltb. destruct (Rlt_dec _ _) as [|H]; [discriminate|].
  intros _. pose proof EPS_positive. lra.
Qed.

(** A column of norm not below the threshold has norm 1 once divided
    by its norm. *)
Lemma normalized_has_unit_norm (w : ScalarVector R) :
  s_ltb (norm w) literal_EPS = false -> norm (vdiv w (norm w)) = 1.
Proof.
  intros H. apply norm_not_below_threshold_positive in H.
  rewrite (norm_real (vdiv _ _)), dot_vdiv_both by lra.
  rewrite norm_sqr.
  replace (dot w w / dot w w) with 1.
  - apply sqrt_1.
  - field. rewrite <- norm_sqr. nra.
Qed.


Lemma dot_all_zero (z q : ScalarVector R) : all_zero z -> dot z q = 0.
Proof.
  revert q; induction z as [|a z IH]; intros q H.
  - apply dot_nil_l.
  - destruct q as [|b q]; [reflexivity|].
    inversion H as [|? ? Ha Hz]; subst.
    rewrite dot_cons, IH by exact Hz. change zero with 0. ring.
Qed.

Lemma vsub_all_zero (z q : ScalarVector R) :
  all_zero z -> all_zero (vsub z (vscale 0 q)).
Proof.
  revert q; induction z as [|a z IH]; intros q H.
  - constructor.
  - destruct q as [|b q]; [constructor|].
    inversion H as [|? ? Ha Hz]; subst.
    cbn [vscale map vsub vzip]. constructor.
    + cbn [s_sub s_mul Rscalar]. change zero with 0. ring.
    + apply IH; exact Hz.
Qed.

Lemma project_step_all_zero (z q : ScalarVector R) :
  all_zero z -> all_zero (project_step z q).
Proof.
  intros H. unfold project_step. rewrite dot_all_zero by exact H.
  apply vsub_all_zero; exact H.
Qed.

Lemma project_all_zero (qs : list (ScalarVector R)) (z : ScalarVector R) :
  all_zero z -> all_zero (project qs z).
Proof.
  revert z; induction qs as [|q qs IH]; intros z H; simpl; auto.
  apply IH, project_step_all_zero, H.
Qed.

Lemma norm_all_zero (z : ScalarVector R) : all_zero z -> norm z = 0.
Proof. intros H. rewrite norm_real, dot_all_zero by exact H. apply sqrt_0. Qed.

Lemma zero_vector_below_threshold (z : ScalarVector R) :
  all_zero z -> s_ltb (norm z) literal_EPS = true.
Proof.
  intros H. rewrite norm_all_zero by exact H.
  cbn [s_ltb Rscalar]. unfold Rltb.
  destruct (Rlt_dec 0 literal_EPS) as [|Hn]; [reflexivity|].
  exfalso. apply Hn, EPS_positive.
Qed.

(** Subtracting from [w] its projection onto [w / |w|] leaves zero. *)
Lemma project_onto_own_direction (w : ScalarVector R) :
  0 < norm w -> all_zero (project_step w (vdiv w (norm w))).
Proof.
  intros Hn. unfold project_step. rewrite dot_vdiv_r, <- norm_sqr.
  replace (norm w * norm w / norm w) with (norm w) by (field; lra).
  generalize (norm w) Hn. intros n Hn'. clear Hn.
  induction w as [|a w IH]; [constructor|].
  cbn [vdiv map vscale vsub vzip]. constructor.
  - cbn [s_sub s_mul s_div Rscalar]. change zero with 0. field. lra.
  - exact IH.
Qed.

Lemma firstn_split_at {A : Type} (l : list A) i j d :
  (i < j)%nat -> (j <= length l)%nat ->
  firstn j l = firstn i l ++ nth i l d :: firstn (j - Datatypes.S i) (skipn (Datatypes.S i) l).
Proof.
  revert i j; induction l as [|a l IH]; intros i j Hij Hj; simpl in Hj.
  - lia.
  - destruct j as [|j]; [lia|]. destruct i as [|i]; simpl.
    + rewrite Nat.sub_0_r. reflexivity.
    + f_equal. apply IH; lia.
Qed.

(** Two equal columns: the second occurrence, if it is reached, is the
    zero vector after its projections, so the collapse point is at or
    before it. *)
Lemma equal_columns_collapse (cs : list (ScalarVector R)) i j :
  (i < j < length cs)%nat -> nth i cs [] = nth j cs [] ->
  forall k, (j <= k)%nat -> all_zero (nth k (orthonormalize [] cs) []).
Proof.
  intros [Hij Hj] Heq k Hk.
  destruct (orthonormalize_collapse cs []) as [p (Hp & H1 & H2 & H3)].
  cbn [length Nat.add] in *.
  destruct (Nat.le_gt_cases p j) as [Hpj|Hpj].
  - apply H3. lia.
  - exfalso.
    destruct (H1 i ltac:(lia)) as [Ti Ni].
    destruct (H1 j Hpj) as [Tj _].
    rewrite (firstn_split_at (orthonormalize [] cs) [] Hij) in Tj
      by (rewrite orthonormalize_length; simpl; lia).
    unfold project in Tj. rewrite fold_left_app in Tj. cbn [fold_left] in Tj.
    fold (project (firstn i (orthonormalize [] cs)) (nth j cs [])) in Tj.
    rewrite <- Heq, Ni in Tj.
    match type of Tj with
    | s_ltb (norm (fold_left project_step ?C ?z)) _ = false =>
        assert (Hz : all_zero (project C z))
    end.
    { apply project_all_zero, project_onto_own_direction.
      apply norm_not_below_threshold_positive; exact Ti. }
    apply zero_vector_below_threshold in Hz. unfold project in Hz, Tj.
    rewrite Hz in Tj. discriminate.
Qed.

End RealGramSchmidt.

(** ** More closed examples *)

Lemma second_sketch_is_range_finder_on_transposed_B_witness :
  (0 <= 1)%Z
  /\ rows (fst (range_finder (transpose (mat_mul A_2x1 (fst (range_finder A_2x1 1 s_zeros))))
                             1 (snd (range_finder A_2x1 1 s_zeros)))) = 2.
Proof.
  assert (Hrank : (0 <= 1)%Z) by discriminate.
  split; [exact Hrank|].
  exact (proj1 (proj2 (proj2 (proj2
           (second_sketch_is_range_finder_on_transposed_B A_2x1 s_zeros Hrank))))).
Defined.

Lemma compute_overwrites_what_it_computes_witness :
  (0 <= 1)%Z
  /\ RedSVD.compute A_2x1 1 RedSVD.empty s_zeros
     = RedSVD.compute A_2x1 1 (RedSVD.mkEngine A_1x1 [5%R] A_1x2) s_zeros.
Proof.
  assert (Hrank : (0 <= 1)%Z) by discriminate.
  split; [exact Hrank|].
  exact (proj1 (compute_overwrites_what_it_computes A_2x1
                  RedSVD.empty (RedSVD.mkEngine A_1x1 [5%R] A_1x2)
                  RedSymEigen.empty RedSymEigen.empty s_zeros Hrank)).
Defined.

Lemma partial_variants_agree_with_compute_witness :
  (0 <= 1)%Z
  /\ RedSVD.m_matrixU (fst (RedSVD.compute_U A_2x1 1 (RedSVD.mkEngine A_1x1 [5%R] A_1x2) s_zeros))
     = RedSVD.m_matrixU (fst (RedSVD.compute A_2x1 1 RedSVD.empty s_zeros)).
Proof.
  assert (Hrank : (0 <= 1)%Z) by discriminate.
  split; [exact Hrank|].
  exact (proj1 (partial_variants_agree_with_compute A_2x1
                  (RedSVD.mkEngine A_1x1 [5%R] A_1x2) RedSVD.empty s_zeros Hrank)).
Defined.

Section CollapseExample.

Local Open Scope R_scope.

Lemma norm_3_4 : norm [3; 4] = 5.
Proof.
  rewrite norm_real, !dot_cons, dot_nil_l.
  replace (3 * 3 + (4 * 4 + 0)) with (5 * 5) by ring.
  apply sqrt_square. lra.
Qed.

(** The first column is divided by its norm 5; the second is the zero
    vector after its projection, and the loop stops there. *)
Example gram_schmidt_twice :
  gram_schmidt A_twice = mkDense 2 [[3 / 5; 4 / 5]; [0; 0]].
Proof.
  rewrite gram_schmidt_columns. cbn [A_twice nrows columns]. f_equal.
  assert (T1 : s_ltb (norm [3; 4]) literal_EPS = false).
  { rewrite norm_3_4. cbn. unfold Rltb. destruct (Rlt_dec _ _); [lra|reflexivity]. }
  assert (P2 : project [vdiv [3; 4] 5] [3; 4] = [0; 0]).
  { cbn [project fold_left]. unfold project_step. rewrite dot_vdiv_r, !dot_cons, dot_nil_l.
    cbn. f_equal; [|f_equal]; field. }
  assert (T2 : s_ltb (norm [0; 0]) literal_EPS = true).
  { apply zero_vector_below_threshold. repeat constructor. }
  cbn [orthonormalize]. change (project [] [3; 4]) with [3; 4].
  rewrite T1, norm_3_4. cbn [app]. rewrite P2, T2. reflexivity.
Qed.

End CollapseExample.

(** Small values of the integer helpers *)

Example clamp_rank_5_3_4 : clamp_rank 5 3 4 = 3%Z.
Proof. reflexivity. Qed.

Example clamp_rank_2_3_4 : clamp_rank 2 3 4 = 2%Z.
Proof. reflexivity. Qed.

Example default_rank_3_4 : default_rank 3 4 = 3%Z.
Proof. reflexivity. Qed.

Example to_int_wraps : to_int (2 ^ 31) = (- 2 ^ 31)%Z.
Proof. reflexivity. Qed.

Example pair_starts_5 : pair_starts 5 = [0; 2].
Proof. reflexivity. Qed.

Example row_draws_5 : row_draws 5 = 6.
Proof. reflexivity. Qed.

Example row_draws_4 : row_draws 4 = 4.
Proof. reflexivity. Qed.

Example transpose_A_1x2 : transpose A_1x2 = mkDense 2 [[1%R; 2%R]].
Proof. reflexivity. Qed.

(** * Further properties *)

(** ** The sampler, for every scalar type *)

Section SamplerMore.

Context {Scalar : Type} {ops : ScalarOps Scalar} {rng : RandSource}.

Lemma row_draws_ceil c : row_draws c = 2 * ((c + 1) / 2).
Proof.
  unfold row_draws.
  pose proof (Nat.div_mod_eq c 2) as Hc.
  pose proof (Nat.mod_upper_bound c 2 ltac:(lia)) as Hm.
  destruct (c mod 2) as [|[|k]] eqn:Hmod; [| |lia]; cbn [Nat.eqb].
  - replace (c + 1) with (2 * (c / 2) + 1) by lia. rewrite half_of_odd. lia.
  - replace (c + 1) with (2 * (c / 2 + 1)) by lia. rewrite half_of_even. lia.
Qed.

(** X1: [sample_gaussian] reads no coefficient of the matrix it fills:
    two well-formed matrices of the same size are filled with the same
    values and leave the generator in the same state. *)
Theorem sample_gaussian_ignores_old_contents (m m' : DenseMatrix Scalar) (s : rand_state) :
  well_formed m -> well_formed m' -> rows m = rows m' -> cols m = cols m' ->
  sample_gaussian m s = sample_gaussian m' s.
Proof.
  intros Hw Hw' Hr Hc.
  apply sample_gaussian_overwrites with (r := rows m) (c := cols m);
    repeat split; auto.
Qed.

(** X2: [sample_gaussian] keeps the size and the well-formedness of the
    matrix, and calls [std::rand] twice per pair of columns of every
    row, a column left over counting as a pair. *)
Theorem sample_gaussian_size_and_draws (m : DenseMatrix Scalar) (s : rand_state) :
  well_formed m ->
  well_formed (fst (sample_gaussian m s))
  /\ rows (fst (sample_gaussian m s)) = rows m
  /\ cols (fst (sample_gaussian m s)) = cols m
  /\ snd (sample_gaussian m s) = rand_skip (rows m * (2 * ((cols m + 1) / 2))) s.
Proof.
  intros Hw.
  assert (Hs : shaped (rows m) (cols m) m) by (repeat split; auto).
  pose proof (sample_gaussian_shaped s Hs) as (H1 & H2 & H3).
  repeat split; auto.
  rewrite (sample_gaussian_skip s Hs), row_draws_ceil. reflexivity.
Qed.

(** X3: the two columns [j] and [j+1] of a pair ([j] even) hold, in
    every row [i], the cosine-based and the sine-based value of one and
    the same call, the call number [i * ceil(cols/2) + j/2] of the
    fill. *)
Theorem sample_gaussian_pairs (m : DenseMatrix Scalar) (i t : nat) (s : rand_state) :
  well_formed m -> i < rows m -> 2 * t + 1 < cols m ->
  let s_call := rand_skip (2 * (i * ((cols m + 1) / 2) + t)) s in
  let xy := box_muller (uniform (next_rand s_call)) (uniform (next_rand2 s_call)) in
  coeff (fst (sample_gaussian m s)) i (2 * t) = fst xy
  /\ coeff (fst (sample_gaussian m s)) i (2 * t + 1) = snd xy.
Proof.
  intros Hw Hi Ht. cbv zeta.
  assert (Hs : shaped (rows m) (cols m) m) by (repeat split; auto).
  rewrite (sample_gaussian_coeff s Hs Hi) by lia.
  rewrite (sample_gaussian_coeff s Hs Hi) by lia.
  rewrite row_draws_ceil, half_of_even, half_of_odd.
  replace (i * (2 * ((cols m + 1) / 2)) + t * 2) with (2 * (i * ((cols m + 1) / 2) + t)) by lia.
  unfold sample_value. rewrite even_double, even_double_plus_one.
  replace (2 * t + 1 <? cols m) with true by (symmetry; apply Nat.ltb_lt; lia).
  split; reflexivity.
Qed.

End SamplerMore.

Lemma sample_gaussian_ignores_old_contents_witness :
  well_formed A_1x2 /\ well_formed (new_matrix (Scalar := R) 1 2)
  /\ sample_gaussian A_1x2 s_max = sample_gaussian (new_matrix 1 2) s_max.
Proof.
  assert (H1 : well_formed A_1x2) by (repeat constructor).
  assert (H2 : well_formed (new_matrix (Scalar := R) 1 2)) by (repeat constructor).
  split; [exact H1|]. split; [exact H2|].
  exact (sample_gaussian_ignores_old_contents s_max H1 H2 eq_refl eq_refl).
Defined.

Lemma sample_gaussian_size_and_draws_witness :
  well_formed A_1x2
  /\ snd (sample_gaussian A_1x2 [1; 2; 3; 4]%Z) = [3; 4]%Z.
Proof.
  assert (H1 : well_formed A_1x2) by (repeat constructor).
  split; [exact H1|].
  exact (proj2 (proj2 (proj2 (sample_gaussian_size_and_draws [1; 2; 3; 4]%Z H1)))).
Defined.

Lemma sample_gaussian_pairs_witness :
  well_formed A_1x2 /\ 0 < rows A_1x2 /\ 2 * 0 + 1 < cols A_1x2
  /\ coeff (fst (sample_gaussian A_1x2 s_max)) 0 0
     = fst (box_muller (uniform RAND_MAX) (uniform 0)).
Proof.
  assert (H1 : well_formed A_1x2) by (repeat constructor).
  split; [exact H1|]. split; [apply Nat.lt_0_1|]. split; [apply Nat.lt_1_2|].
  exact (proj1 (sample_gaussian_pairs (m := A_1x2) (i := 0) 0 s_max
                  H1 Nat.lt_0_1 Nat.lt_1_2)).
Defined.

(** ** The sampler over the reals *)

Section RealSamplerMore.

Context {rng : RandSource}.

Local Open Scope R_scope.

Lemma ln_monotone x y : 0 < x -> x <= y -> ln x <= ln y.
Proof.
  intros Hx [Hlt|Heq].
  - left. apply ln_increasing; assumption.
  - subst y. lra.
Qed.

(** X4: in exact arithmetic the pair one call draws lies on the circle
    of squared radius [-2 ln v1], and since [v1] is at least
    [1 / (RAND_MAX + 2)] no sample is ever farther from 0 than
    [sqrt (2 ln (RAND_MAX + 2))]. *)
Theorem box_muller_pair_on_bounded_circle (s : rand_state) :
  (0 <= next_rand s <= RAND_MAX)%Z ->
  let x := fst (fst (sample_pair (Scalar := R) s)) in
  let y := snd (fst (sample_pair (Scalar := R) s)) in
  x * x + y * y = -2 * ln (uniform (next_rand s))
  /\ x * x + y * y <= 2 * ln (IZR RAND_MAX + 2)
  /\ Rabs x <= sqrt (2 * ln (IZR RAND_MAX + 2))
  /\ Rabs y <= sqrt (2 * ln (IZR RAND_MAX + 2)).
Proof.
  intros Hk. cbv zeta. rewrite sample_pair_eq. cbn [fst snd].
  pose proof (uniform_real_bounds Hk) as [Hv0 Hv1].
  set (v1 := uniform (next_rand s)) in *.
  set (v2 := uniform (next_rand2 s)).
  unfold box_muller. cbn [fst snd s_mul s_sqrt s_log s_cos s_sin of_int Rscalar].
  set (theta := 2 * literal_PI * v2).
  assert (Hln : ln v1 < 0).
  { rewrite <- ln_1. apply ln_increasing; assumption. }
  assert (Hlen : sqrt (-2 * ln v1) * sqrt (-2 * ln v1) = -2 * ln v1)
    by (apply sqrt_sqrt; lra).
  pose proof (sin2_cos2 theta) as Hsc. unfold Rsqr in Hsc.
  assert (Hcircle : sqrt (-2 * ln v1) * cos theta * (sqrt (-2 * ln v1) * cos theta)
                    + sqrt (-2 * ln v1) * sin theta * (sqrt (-2 * ln v1) * sin theta)
                    = -2 * ln v1).
  { transitivity (sqrt (-2 * ln v1) * sqrt (-2 * ln v1)
                  * (sin theta * sin theta + cos theta * cos theta)); [ring|].
    rewrite Hsc, Hlen. ring. }
  assert (Hb : 0 < IZR RAND_MAX + 2).
  { destruct Hk as [H0 H1]. apply IZR_le in H0, H1. lra. }
  assert (Hlow : / (IZR RAND_MAX + 2) <= v1).
  { unfold v1. rewrite uniform_real. unfold Rdiv.
    destruct Hk as [H0 _]. apply IZR_le in H0.
    rewrite <- (Rmult_1_l (/ (IZR RAND_MAX + 2))) at 1.
    apply Rmult_le_compat_r; [left; apply Rinv_0_lt_compat; exact Hb | lra]. }
  assert (Hbound : -2 * ln v1 <= 2 * ln (IZR RAND_MAX + 2)).
  { pose proof (ln_monotone (Rinv_0_lt_compat _ Hb) Hlow) as H.
    rewrite ln_Rinv in H by exact Hb. lra. }
  split; [exact Hcircle|]. split; [rewrite Hcircle; exact Hbound|].
  assert (Hsq : forall a b, a * a + b * b = -2 * ln v1 ->
                            Rabs a <= sqrt (2 * ln (IZR RAND_MAX + 2))).
  { intros a b Hab. rewrite <- sqrt_Rsqr_abs. apply sqrt_le_1_alt.
    unfold Rsqr. nra. }
  split.
  - apply (Hsq _ _ Hcircle).
  - apply (Hsq _ (sqrt (-2 * ln v1) * cos theta)). rewrite Rplus_comm. exact Hcircle.
Qed.

End RealSamplerMore.

Lemma box_muller_pair_on_bounded_circle_witness :
  (0 <= next_rand s_max <= RAND_MAX)%Z
  /\ (Rabs (fst (fst (sample_pair (Scalar := R) s_max)))
      <= sqrt (2 * ln (IZR RAND_MAX + 2)))%R.
Proof.
  assert (H1 : (0 <= next_rand s_max <= RAND_MAX)%Z) by (split; discriminate).
  split; [exact H1|].
  exact (proj1 (proj2 (proj2 (box_muller_pair_on_bounded_circle s_max H1)))).
Defined.

(** ** The orthonormalizer, for every scalar type *)

Section GramSchmidtMore.

Context {Scalar : Type} {ops : ScalarOps Scalar}.

Lemma length_vzip (f : Scalar -> Scalar -> Scalar) (u v : ScalarVector Scalar) :
  length (vzip f u v) = Nat.min (length u) (length v).
Proof.
  revert v; induction u as [|a u IH]; intros [|b v]; simpl; auto.
Qed.

Lemma length_project_step r (w q : ScalarVector Scalar) :
  length w = r -> length q = r -> length (project_step w q) = r.
Proof.
  intros Hw Hq. unfold project_step, vsub, vscale.
  rewrite length_vzip, length_map. lia.
Qed.

Lemma length_project r (qs : list (ScalarVector Scalar)) (c : ScalarVector Scalar) :
  Forall (fun q => length q = r) qs -> length c = r -> length (project qs c) = r.
Proof.
  intros Hqs. revert c. induction Hqs as [|q qs Hq _ IH]; intros c Hc; simpl; auto.
  apply IH. apply length_project_step; assumption.
Qed.

Lemma orthonormalize_lengths r (todo done : list (ScalarVector Scalar)) :
  Forall (fun q => length q = r) done -> Forall (fun q => length q = r) todo ->
  Forall (fun q => length q = r) (orthonormalize done todo).
Proof.
  revert done; induction todo as [|c rest IH]; intros done Hd Ht; simpl; auto.
  pose proof (Forall_inv Ht) as Hc. pose proof (Forall_inv_tail Ht) as Hrest.
  pose proof (length_project c Hd Hc) as Hw.
  destruct (s_ltb _ _).
  - apply Forall_app. split; [exact Hd|].
    change (vzero (project done c) :: map vzero rest)
      with (map vzero (project done c :: rest)).
    apply Forall_map. constructor.
    + unfold vzero. rewrite length_map. exact Hw.
    + apply Forall_impl with (2 := Hrest). intros q Hq.
      unfold vzero. rewrite length_map. exact Hq.
  - apply IH; [|exact Hrest].
    apply Forall_app. split; [exact Hd|]. constructor; [|constructor].
    unfold vdiv. rewrite length_map. exact Hw.
Qed.

(** X6: [gram_schmidt] keeps the number of rows and of columns, and
    every column of its result has as many coefficients as before. *)
Theorem gram_schmidt_keeps_the_shape (m : DenseMatrix Scalar) :
  well_formed m ->
  well_formed (gram_schmidt m)
  /\ rows (gram_schmidt m) = rows m /\ cols (gram_schmidt m) = cols m.
Proof.
  intros Hw. split; [|split].
  - rewrite gram_schmidt_columns. unfold well_formed. cbn [columns nrows].
    apply orthonormalize_lengths; [constructor | exact Hw].
  - apply rows_gram_schmidt.
  - apply cols_gram_schmidt.
Qed.

Lemma orthonormalize_firstn_todo (todo done : list (ScalarVector Scalar)) k :
  orthonormalize done (firstn k todo)
  = firstn (length done + k) (orthonormalize done todo).
Proof.
  revert done k; induction todo as [|c rest IH]; intros done k.
  - rewrite firstn_nil. cbn [orthonormalize]. symmetry. apply firstn_all2. lia.
  - destruct k as [|k].
    + rewrite Nat.add_0_r, orthonormalize_firstn. reflexivity.
    + cbn [firstn orthonormalize].
      destruct (s_ltb (norm (project done c)) literal_EPS).
      * rewrite firstn_app. rewrite (firstn_all2 done) by lia.
        replace (length done + Datatypes.S k - length done) with (Datatypes.S k) by lia.
        cbn [firstn]. rewrite firstn_map. reflexivity.
      * rewrite IH. f_equal. rewrite length_app. simpl. lia.
Qed.

(** X7: the columns [gram_schmidt] leaves depend on the columns to their
    left only: the first [k] columns of the result are the result for
    the first [k] columns, whether the loop stopped early or not. *)
Theorem gram_schmidt_left_columns (m : DenseMatrix Scalar) (k : nat) :
  left_columns (gram_schmidt m) k = gram_schmidt (left_columns m k).
Proof.
  rewrite !gram_schmidt_columns. unfold left_columns. cbn [nrows columns].
  f_equal. symmetry. apply (orthonormalize_firstn_todo (columns m) [] k).
Qed.

End GramSchmidtMore.

Lemma gram_schmidt_keeps_the_shape_witness :
  well_formed A_twice /\ cols (gram_schmidt A_twice) = 2.
Proof.
  assert (H : well_formed A_twice) by (repeat constructor).
  split; [exact H|].
  exact (proj2 (proj2 (gram_schmidt_keeps_the_shape H))).
Defined.

(** ** The collapse policy, for every scalar type *)

Section CollapsePolicy.

Context {Scalar : Type} {ops : ScalarOps Scalar}.

Lemma all_zero_repeat (v : ScalarVector Scalar) r :
  all_zero v -> length v = r -> v = repeat zero r.
Proof.
  intros H <-. induction H as [|a v Ha _ IH]; [reflexivity|].
  cbn [length repeat]. rewrite Ha, <- IH. reflexivity.
Qed.

(** C5 (amended), for every scalar type: [gram_schmidt] returns for
    every well-formed matrix, keeps its shape, and has a collapse point
    [p].  Every column [i] left of [p] is the original column [i] minus
    its projections onto the finished columns to its left, of a norm
    that did not compare below [1e-4], divided by that norm.  Column
    [p], if there is one, had after its projections a norm below
    [1e-4].  Column [p] and all columns right of it consist of zeros,
    whatever they held. *)
Theorem gram_schmidt_collapse_policy (m : DenseMatrix Scalar) :
  well_formed m ->
  let out := gram_schmidt m in
  well_formed out /\ rows out = rows m /\ cols out = cols m
  /\ exists p, p <= cols m
      /\ (forall i, i < p ->
            let w := project (firstn i (columns out)) (col m i) in
            s_ltb (norm w) literal_EPS = false
            /\ col out i = vdiv w (norm w))
      /\ (p < cols m ->
            s_ltb (norm (project (firstn p (columns out)) (col m p))) literal_EPS = true)
      /\ (forall k, p <= k < cols m -> col out k = repeat zero (rows m)).
Proof.
  intros Hw. cbv zeta.
  assert (Hl : Forall (fun q => length q = nrows m) (orthonormalize [] (columns m)))
    by (apply orthonormalize_lengths; [constructor | exact Hw]).
  rewrite rows_gram_schmidt, cols_gram_schmidt, gram_schmidt_columns.
  split; [exact Hl|]. split; [reflexivity|]. split; [reflexivity|].
  destruct (orthonormalize_collapse (columns m) []) as [p (Hp & H1 & H2 & H3)].
  cbn [length Nat.add] in *.
  exists p. split; [exact Hp|]. split; [|split].
  - intros i Hi. destruct (H1 i Hi) as [T N]. unfold col. cbn [columns].
    split; [exact T | exact N].
  - exact H2.
  - intros k [Hk Hkc]. unfold col. cbn [columns].
    apply all_zero_repeat; [apply H3; exact Hk|].
    rewrite Forall_nth in Hl. apply Hl.
    rewrite orthonormalize_length. exact Hkc.
Qed.

End CollapsePolicy.

Lemma gram_schmidt_collapse_policy_witness :
  well_formed A_big_twice
  /\ (forall libm : LibM, cols (gram_schmidt (ops := binary64 libm) A_big_twice) = 2).
Proof.
  assert (H : well_formed A_big_twice) by (repeat constructor).
  split; [exact H|].
  intros libm.
  exact (proj1 (proj2 (proj2 (gram_schmidt_collapse_policy (ops := binary64 libm) H)))).
Defined.

(** C5, as stated: in [double] arithmetic the second of two equal
    columns [(1e15, 7e15)] is not zeroed.  The rounding of the projection
    leaves the column [(-1/8, -1)], of a norm not below [1e-4], which is
    divided by its norm and stored.  And a column left of the collapse
    point need not be normalized: the squared norm of [(1e200, 1e200)]
    overflows, the column is divided by infinity and stored as zeros,
    and the column after it is processed as if nothing had happened. *)
Lemma equal_columns_survive_in_binary64 :
  col A_big_twice 0 = col A_big_twice 1
  /\ (forall libm : LibM,
        gram_schmidt (ops := binary64 libm) A_big_twice
        = mkDense 2 [[S754_finite false 5095241338020618 (-55);
                      S754_finite false 8916672341536082 (-53)];
                     [S754_finite true 8937644551631322 (-56);
                      S754_finite true 8937644551631322 (-53)]])
  /\ (forall libm : LibM,
        gram_schmidt (ops := binary64 libm) A_huge_first
        = mkDense 2 [[S754_zero false; S754_zero false];
                     [S754_finite false 4503599627370496 (-52); S754_zero false]]).
Proof.
  split; [reflexivity|].
  split; intros libm; vm_compute; reflexivity.
Qed.

Example left_columns_of_gram_schmidt_twice :
  left_columns (gram_schmidt A_twice) 1 = mkDense 2 [[3 / 5; 4 / 5]%R].
Proof. rewrite gram_schmidt_twice. reflexivity. Qed.

(** ** The orthonormalizer over the reals: columns of small norm *)

Section RealGramSchmidtMore.

Local Open Scope R_scope.









End RealGramSchmidtMore.



(** ** The engines: random draws, sizes of the results, large ranks *)

Section EngineMore.

Context {Scalar : Type} {ops : ScalarOps Scalar} {rng : RandSource}
        {solvers : DenseSolvers Scalar}.

Lemma effective_rank_min (A : DenseMatrix Scalar) rank :
  (0 <= rank)%Z ->
  effective_rank A rank = Nat.min (Z.to_nat rank) (Nat.min (rows A) (cols A)).
Proof. intros H. unfold effective_rank. rewrite clamp_rank_min. lia. Qed.

Lemma sketch_O_skip (A : DenseMatrix Scalar) rank s :
  snd (sketch_O A rank s) = rand_skip (rows A * row_draws (effective_rank A rank)) s.
Proof. unfold sketch_O. apply sample_gaussian_skip, shaped_new_matrix. Qed.

Lemma sketch_P_skip (A : DenseMatrix Scalar) rank s :
  snd (sketch_P A rank s)
  = rand_skip ((rows A + effective_rank A rank) * row_draws (effective_rank A rank)) s.
Proof.
  unfold sketch_P. rewrite cols_sketch_B.
  rewrite (sample_gaussian_skip _ (shaped_new_matrix _ _)), sketch_O_skip.
  rewrite <- rand_skip_add. f_equal. lia.
Qed.

(** X11: for a rank that is not negative, [RedSVD::compute] calls
    [std::rand] [(rows(A) + r) * 2 * ceil(r / 2)] times, with
    [r = min(rank, rows(A), cols(A))]: the first Gaussian matrix has
    [rows(A)] rows, the second has [r], both have [r] columns.  The [U]
    it stores has as many rows as [A], the [V] as many as [A] has
    columns, whatever the solver returned. *)
Theorem svd_compute_draws_and_shapes
        (A : DenseMatrix Scalar) (rank : Z) (this : RedSVD.engine) (s : rand_state) :
  (0 <= rank)%Z ->
  let r := Nat.min (Z.to_nat rank) (Nat.min (rows A) (cols A)) in
  let res := RedSVD.compute A rank this s in
  snd res = rand_skip ((rows A + r) * (2 * ((r + 1) / 2))) s
  /\ well_formed (RedSVD.m_matrixU (fst res))
  /\ rows (RedSVD.m_matrixU (fst res)) = rows A
  /\ well_formed (RedSVD.m_matrixV (fst res))
  /\ rows (RedSVD.m_matrixV (fst res)) = cols A.
Proof.
  intros Hrank. cbv zeta. rewrite compute_eq.
  cbn [fst snd RedSVD.m_matrixU RedSVD.m_matrixV].
  rewrite sketch_P_skip, row_draws_ceil, effective_rank_min by exact Hrank.
  rewrite !rows_mat_mul, rows_sketch_Z, rows_sketch_Y.
  repeat split; apply well_formed_mat_mul.
Qed.

(** X12: for a square matrix that is not empty and a rank that is not
    negative, [RedSymEigen::compute] calls [std::rand]
    [rows(A) * 2 * ceil(r / 2)] times, with [r = min(rank, rows(A))],
    and the matrix of eigenvectors it stores has as many rows as [A]. *)
Theorem sym_eigen_compute_draws_and_shapes
        (A : DenseMatrix Scalar) (rank : Z) (this : RedSymEigen.engine) (s : rand_state) :
  (0 <= rank)%Z -> rows A = cols A -> rows A <> 0 ->
  let r := Nat.min (Z.to_nat rank) (rows A) in
  let res := RedSymEigen.compute A rank this s in
  snd res = rand_skip (rows A * (2 * ((r + 1) / 2))) s
  /\ well_formed (RedSymEigen.m_eigenvectors (fst res))
  /\ rows (RedSymEigen.m_eigenvectors (fst res)) = rows A.
Proof.
  intros Hrank Hsq Hne. cbv zeta. rewrite eigen_compute_eq.
  assert (G : (cols A =? 0) || (rows A =? 0) = false).
  { apply orb_false_iff. split; apply Nat.eqb_neq; lia. }
  rewrite G. cbn [fst snd RedSymEigen.m_eigenvectors].
  rewrite sketch_O_skip, row_draws_ceil, effective_rank_min by exact Hrank.
  rewrite rows_mat_mul. unfold eigen_Y. rewrite rows_sketch_Y.
  replace (Nat.min (rows A) (cols A)) with (rows A) by lia.
  repeat split; [apply well_formed_mat_mul | lia].
Qed.

Lemma compute_svd_clamp (A : DenseMatrix Scalar) rank rank' s :
  clamp_rank rank (rows A) (cols A) = clamp_rank rank' (rows A) (cols A) ->
  RedSVD.compute_svd A rank s = RedSVD.compute_svd A rank' s.
Proof. intros H. unfold RedSVD.compute_svd. cbv zeta. rewrite H. reflexivity. Qed.

Lemma svd_compute_clamp (A : DenseMatrix Scalar) rank rank' this s :
  clamp_rank rank (rows A) (cols A) = clamp_rank rank' (rows A) (cols A) ->
  RedSVD.compute A rank this s = RedSVD.compute A rank' this s.
Proof.
  intros H. unfold RedSVD.compute, bind. rewrite (@compute_svd_clamp A rank rank' s H). reflexivity.
Qed.

Lemma sym_eigen_compute_clamp (A : DenseMatrix Scalar) rank rank' this s :
  clamp_rank rank (rows A) (cols A) = clamp_rank rank' (rows A) (cols A) ->
  RedSymEigen.compute A rank this s = RedSymEigen.compute A rank' this s.
Proof. intros H. unfold RedSymEigen.compute. cbv zeta. rewrite H. reflexivity. Qed.

Lemma pca_compute_clamp (A : DenseMatrix Scalar) rank rank' this s :
  clamp_rank rank (rows A) (cols A) = clamp_rank rank' (rows A) (cols A) ->
  RedPCA.compute A rank this s = RedPCA.compute A rank' this s.
Proof.
  intros H. unfold RedPCA.compute, RedSVD.construct_rank, bind.
  rewrite (@svd_compute_clamp A rank rank' RedSVD.empty s H). reflexivity.
Qed.

Lemma default_rank_min a_rows a_cols :
  (Z.of_nat (Nat.min a_rows a_cols) < 2 ^ 31)%Z ->
  default_rank a_rows a_cols = Z.of_nat (Nat.min a_rows a_cols).
Proof.
  intros H. unfold default_rank. destruct (Nat.ltb_spec a_rows a_cols).
  - rewrite Nat.min_l in * by lia. apply to_int_small. lia.
  - rewrite Nat.min_r in * by lia. apply to_int_small. lia.
Qed.

(** X13: a rank at or above [min(rows(A), cols(A))] is as good as any
    other such rank: for a matrix whose smaller dimension fits an [int],
    the two-argument constructor of each of the three classes then
    builds what the one-argument constructor builds, from the same
    random values. *)
Theorem large_rank_is_full_rank (A : DenseMatrix Scalar) (rank : Z) (s : rand_state) :
  (Z.of_nat (Nat.min (rows A) (cols A)) < 2 ^ 31)%Z ->
  (Z.of_nat (Nat.min (rows A) (cols A)) <= rank)%Z ->
  RedSVD.construct_rank A rank s = RedSVD.construct A s
  /\ RedSymEigen.construct_rank A rank s = RedSymEigen.construct A s
  /\ RedPCA.construct_rank A rank s = RedPCA.construct A s.
Proof.
  intros Hint Hrank.
  assert (H : clamp_rank rank (rows A) (cols A)
              = clamp_rank (default_rank (rows A) (cols A)) (rows A) (cols A)).
  { rewrite default_rank_min by exact Hint. rewrite !clamp_rank_min. lia. }
  unfold RedSVD.construct_rank, RedSVD.construct, RedSymEigen.construct_rank,
    RedSymEigen.construct, RedPCA.construct_rank, RedPCA.construct.
  cbv zeta. split; [|split].
  - apply svd_compute_clamp; exact H.
  - apply sym_eigen_compute_clamp; exact H.
  - apply pca_compute_clamp; exact H.
Qed.

Lemma pca_compute_eq (A : DenseMatrix Scalar) rank this s :
  RedPCA.compute A rank this s =
  (let svd := fst (RedSVD.compute A rank RedSVD.empty s) in
   RedPCA.mkEngine (RedSVD.m_matrixV svd)
     (RedPCA.times_diagonal (RedSVD.m_matrixU svd) (RedSVD.m_vectorS svd)),
   snd (RedSVD.compute A rank RedSVD.empty s)).
Proof.
  unfold RedPCA.compute, RedSVD.construct_rank, bind, ret.
  destruct (RedSVD.compute A rank RedSVD.empty s) as [svd s']. reflexivity.
Qed.

Lemma well_formed_times_diagonal (U : DenseMatrix Scalar) (S : ScalarVector Scalar) :
  well_formed U -> well_formed (RedPCA.times_diagonal U S).
Proof.
  intros H. unfold well_formed, RedPCA.times_diagonal in *. cbn [columns nrows].
  rewrite Forall_forall in *. intros c Hc.
  apply in_map_iff in Hc. destruct Hc as [[u x] [<- Hin]].
  cbn [fst snd]. rewrite length_map. apply H.
  apply in_combine_l in Hin. exact Hin.
Qed.


(** X15: for a rank that is not negative, the scores [RedPCA::compute]
    stores have one row per row of [A] and the components one row per
    column of [A], and [std::rand] is called
    [(rows(A) + r) * 2 * ceil(r / 2)] times, with
    [r = min(rank, rows(A), cols(A))]. *)
Theorem pca_compute_draws_and_shapes
        (A : DenseMatrix Scalar) (rank : Z) (this : RedPCA.engine) (s : rand_state) :
  (0 <= rank)%Z ->
  let r := Nat.min (Z.to_nat rank) (Nat.min (rows A) (cols A)) in
  let res := RedPCA.compute A rank this s in
  snd res = rand_skip ((rows A + r) * (2 * ((r + 1) / 2))) s
  /\ well_formed (RedPCA.scores (fst res))
  /\ rows (RedPCA.scores (fst res)) = rows A
  /\ well_formed (RedPCA.components (fst res))
  /\ rows (RedPCA.components (fst res)) = cols A.
Proof.
  intros Hrank. cbv zeta. rewrite pca_compute_eq, !compute_eq.
  cbn [fst snd RedPCA.components RedPCA.scores RedPCA.m_components RedPCA.m_scores
       RedSVD.m_matrixU RedSVD.m_vectorS RedSVD.m_matrixV].
  rewrite sketch_P_skip, row_draws_ceil, effective_rank_min by exact Hrank.
  split; [reflexivity|]. split.
  { apply well_formed_times_diagonal, well_formed_mat_mul. }
  split.
  { unfold RedPCA.times_diagonal, rows. cbn [nrows]. apply rows_sketch_Z. }
  split; [apply well_formed_mat_mul|].
  rewrite rows_mat_mul. apply rows_sketch_Y.
Qed.

End EngineMore.

Lemma svd_compute_draws_and_shapes_witness :
  (0 <= 1)%Z
  /\ snd (RedSVD.compute A_2x1 1 RedSVD.empty [1; 2; 3; 4; 5; 6; 7; 8]%Z) = [7; 8]%Z.
Proof.
  assert (H : (0 <= 1)%Z) by discriminate.
  split; [exact H|].
  exact (proj1 (svd_compute_draws_and_shapes A_2x1 RedSVD.empty
                  [1; 2; 3; 4; 5; 6; 7; 8]%Z H)).
Defined.

Lemma sym_eigen_compute_draws_and_shapes_witness :
  (0 <= 1)%Z /\ rows A_1x1 = cols A_1x1 /\ rows A_1x1 <> 0
  /\ snd (RedSymEigen.compute A_1x1 1 RedSymEigen.empty [1; 2; 3]%Z) = [3]%Z.
Proof.
  assert (H : (0 <= 1)%Z) by discriminate.
  split; [exact H|]. split; [reflexivity|]. split; [exact (Nat.neq_succ_0 0)|].
  exact (proj1 (sym_eigen_compute_draws_and_shapes A_1x1 RedSymEigen.empty
                  [1; 2; 3]%Z H eq_refl (Nat.neq_succ_0 0))).
Defined.

Lemma large_rank_is_full_rank_witness :
  (Z.of_nat (Nat.min (rows A_1x2) (cols A_1x2)) < 2 ^ 31)%Z
  /\ (Z.of_nat (Nat.min (rows A_1x2) (cols A_1x2)) <= 5)%Z
  /\ RedPCA.construct_rank A_1x2 5 s_zeros = RedPCA.construct A_1x2 s_zeros.
Proof.
  assert (H1 : (Z.of_nat (Nat.min (rows A_1x2) (cols A_1x2)) < 2 ^ 31)%Z) by reflexivity.
  assert (H2 : (Z.of_nat (Nat.min (rows A_1x2) (cols A_1x2)) <= 5)%Z) by discriminate.
  split; [exact H1|]. split; [exact H2|].
  exact (proj2 (proj2 (large_rank_is_full_rank A_1x2 s_zeros H1 H2))).
Defined.


Lemma pca_compute_draws_and_shapes_witness :
  (0 <= 1)%Z
  /\ rows (RedPCA.scores (fst (RedPCA.compute A_2x1 1 RedPCA.empty s_zeros))) = 2.
Proof.
  assert (H : (0 <= 1)%Z) by discriminate.
  split; [exact H|].
  exact (proj1 (proj2 (proj2 (pca_compute_draws_and_shapes A_2x1 RedPCA.empty s_zeros H)))).
Defined.

(** ** Rank zero *)

Section ZeroRank.

Context {Scalar : Type} {ops : ScalarOps Scalar} {rng : RandSource}
        {solvers : DenseSolvers Scalar}.



End ZeroRank.

(** ** The sampled matrix over the reals *)

Section RealSamplerMatrix.

Context {rng : RandSource}.

Local Open Scope R_scope.

Lemma box_muller_components_bounded (k1 k2 : Z) :
  (0 <= k1 <= RAND_MAX)%Z ->
  Rabs (fst (box_muller (uniform (Scalar := R) k1) (uniform k2)))
    <= sqrt (2 * ln (IZR RAND_MAX + 2))
  /\ Rabs (snd (box_muller (uniform (Scalar := R) k1) (uniform k2)))
    <= sqrt (2 * ln (IZR RAND_MAX + 2)).
Proof.
  intros Hk.
  pose proof (uniform_real_bounds Hk) as [Hv0 Hv1].
  assert (Hb : 0 < IZR RAND_MAX + 2).
  { destruct Hk as [H0 H1]. apply IZR_le in H0, H1. lra. }
  assert (Hlow : / (IZR RAND_MAX + 2) <= uniform (Scalar := R) k1).
  { rewrite uniform_real. unfold Rdiv.
    destruct Hk as [H0 _]. apply IZR_le in H0.
    rewrite <- (Rmult_1_l (/ (IZR RAND_MAX + 2))) at 1.
    apply Rmult_le_compat_r; [left; apply Rinv_0_lt_compat; exact Hb | lra]. }
  set (v1 := uniform (Scalar := R) k1) in *.
  unfold box_muller. cbn [fst snd s_mul s_sqrt s_log s_cos s_sin of_int Rscalar].
  set (theta := 2 * literal_PI * uniform k2).
  assert (Hln : ln v1 < 0).
  { rewrite <- ln_1. apply ln_increasing; assumption. }
  assert (Hlen : sqrt (-2 * ln v1) * sqrt (-2 * ln v1) = -2 * ln v1)
    by (apply sqrt_sqrt; lra).
  pose proof (sin2_cos2 theta) as Hsc. unfold Rsqr in Hsc.
  assert (Hbound : -2 * ln v1 <= 2 * ln (IZR RAND_MAX + 2)).
  { pose proof (ln_monotone (Rinv_0_lt_compat _ Hb) Hlow) as H.
    rewrite ln_Rinv in H by exact Hb. lra. }
  assert (Hsq : forall a b, a * a + b * b = -2 * ln v1 ->
                            Rabs a <= sqrt (2 * ln (IZR RAND_MAX + 2))).
  { intros a b Hab. rewrite <- sqrt_Rsqr_abs. apply sqrt_le_1_alt.
    unfold Rsqr. nra. }
  split.
  - apply (Hsq _ (sqrt (-2 * ln v1) * sin theta)).
    transitivity (sqrt (-2 * ln v1) * sqrt (-2 * ln v1)
                  * (sin theta * sin theta + cos theta * cos theta)); [ring|].
    rewrite Hsc, Hlen. ring.
  - apply (Hsq _ (sqrt (-2 * ln v1) * cos theta)).
    transitivity (sqrt (-2 * ln v1) * sqrt (-2 * ln v1)
                  * (sin theta * sin theta + cos theta * cos theta)); [ring|].
    rewrite Hsc, Hlen. ring.
Qed.

(** X18: in exact arithmetic, when every value [std::rand] returns
    during the fill lies in [0, RAND_MAX], no coefficient of the matrix
    [sample_gaussian] fills is farther from 0 than
    [sqrt (2 ln (RAND_MAX + 2))]: the samples are bounded, unlike those
    of a normal distribution. *)
Theorem sample_gaussian_coefficients_are_bounded
        (m : DenseMatrix R) (s : rand_state) (i j : nat) :
  (forall n, (0 <= next_rand (rand_skip n s) <= RAND_MAX)%Z) ->
  well_formed m -> (i < rows m)%nat -> (j < cols m)%nat ->
  Rabs (coeff (fst (sample_gaussian m s)) i j) <= sqrt (2 * ln (IZR RAND_MAX + 2)).
Proof.
  intros Hrand Hw Hi Hj.
  assert (Hs : shaped (rows m) (cols m) m) by (repeat split; auto).
  rewrite (sample_gaussian_coeff s Hs Hi Hj). unfold sample_value.
  destruct (box_muller_components_bounded
              (next_rand2 (rand_skip (i * row_draws (cols m) + j / 2 * 2) s))
              (Hrand (i * row_draws (cols m) + j / 2 * 2)%nat)) as [Hx Hy].
  destruct (Nat.even j && (j + 1 <? cols m)%nat); assumption.
Qed.

End RealSamplerMatrix.

Lemma scripted_zeros_in_range n :
  (0 <= next_rand (rand_skip n s_zeros) <= RAND_MAX)%Z.
Proof.
  induction n as [|n IH]; [split; discriminate | exact IH].
Qed.

Lemma sample_gaussian_coefficients_are_bounded_witness :
  (forall n, (0 <= next_rand (rand_skip n s_zeros) <= RAND_MAX)%Z)
  /\ well_formed A_1x2 /\ 0 < rows A_1x2 /\ 1 < cols A_1x2
  /\ (Rabs (coeff (fst (sample_gaussian A_1x2 s_zeros)) 0 1)
      <= sqrt (2 * ln (IZR RAND_MAX + 2)))%R.
Proof.
  assert (H : well_formed A_1x2) by (repeat constructor).
  split; [exact scripted_zeros_in_range|]. split; [exact H|].
  split; [apply Nat.lt_0_1|]. split; [apply Nat.lt_1_2|].
  exact (@sample_gaussian_coefficients_are_bounded scripted_rand A_1x2 s_zeros 0 1
           scripted_zeros_in_range H Nat.lt_0_1 Nat.lt_1_2).
Defined.

(** ** The partial variants called one after the other *)

Section PartialVariantsInSequence.

Context {Scalar : Type} {ops : ScalarOps Scalar} {rng : RandSource}
        {solvers : DenseSolvers Scalar}.

(** X19: [compute_U] followed by [compute_V] on the same matrix and
    rank does not give the three factors of one decomposition.  Each
    call runs the whole pipeline on fresh random values, so with [n] the
    number of values one call draws, the engine ends with the [U] of the
    decomposition drawn from the state [s] and with the [S] and [V] of
    the decomposition drawn from the state [n] values later. *)
Theorem partial_variants_in_sequence_use_different_draws
        (A : DenseMatrix Scalar) (rank : Z) (this other : RedSVD.engine) (s : rand_state) :
  (0 <= rank)%Z ->
  let r := Nat.min (Z.to_nat rank) (Nat.min (rows A) (cols A)) in
  let n := (rows A + r) * (2 * ((r + 1) / 2)) in
  let first := RedSVD.compute_U A rank this s in
  let second := RedSVD.compute_V A rank (fst first) (snd first) in
  snd first = rand_skip n s
  /\ RedSVD.m_matrixU (fst second)
     = RedSVD.m_matrixU (fst (RedSVD.compute A rank other s))
  /\ RedSVD.m_vectorS (fst second)
     = RedSVD.m_vectorS (fst (RedSVD.compute A rank other (rand_skip n s)))
  /\ RedSVD.m_matrixV (fst second)
     = RedSVD.m_matrixV (fst (RedSVD.compute A rank other (rand_skip n s)))
  /\ snd second = rand_skip (n + n) s.
Proof.
  intros Hrank. cbv zeta.
  rewrite compute_U_eq. cbn [fst snd].
  rewrite compute_V_eq, !compute_eq.
  cbn [fst snd RedSVD.m_matrixU RedSVD.m_vectorS RedSVD.m_matrixV].
  rewrite !sketch_P_skip, row_draws_ceil, effective_rank_min by exact Hrank.
  rewrite <- rand_skip_add. auto 10.
Qed.

End PartialVariantsInSequence.

Lemma partial_variants_in_sequence_use_different_draws_witness :
  (0 <= 1)%Z
  /\ snd (RedSVD.compute_V A_2x1 1
            (fst (RedSVD.compute_U A_2x1 1 RedSVD.empty [1; 2; 3; 4; 5; 6; 7; 8; 9; 10; 11; 12; 13]%Z))
            (snd (RedSVD.compute_U A_2x1 1 RedSVD.empty [1; 2; 3; 4; 5; 6; 7; 8; 9; 10; 11; 12; 13]%Z)))
     = [13]%Z.
Proof.
  assert (H : (0 <= 1)%Z) by discriminate.
  split; [exact H|].
  exact (proj2 (proj2 (proj2 (proj2
           (partial_variants_in_sequence_use_different_draws A_2x1 RedSVD.empty RedSVD.empty
              [1; 2; 3; 4; 5; 6; 7; 8; 9; 10; 11; 12; 13]%Z H))))).
Defined.
